(** * ColorEnv: the grid colouring environment of [colorenv/colorenv.py]

    A shallow embedding of the [ColorEnv] class: the configuration, the
    environment state, the free-coordinate pool, the legality check and the
    [step]/[reset] protocol, followed by the properties of the episode
    state machine. *)

From stdpp Require Import base option list gmap sets.
From Stdlib Require Import ZArith Lia.

(** ** Data model *)

(** The attributes read from the configuration file in [__init__]. Python
    integers are unbounded: [n] is a side length (never negative), colours
    and rewards are integers. *)
Record config := Config {
  n : nat;
  num_colors : Z;
  maximize_red : bool;
  ordered_placement : bool;
  disable_checking : bool;
  flatten : bool
}.

(** A board coordinate [(i, j)] produced by [range(n)]. *)
Definition coord : Type := nat * nat.

(** One [n x n] layer of the array [self.state]. *)
Abbreviation grid := (list (list Z)).

(** [self.free_coords] is a Python list under ordered placement and a Python
    set otherwise. *)
Inductive pool :=
  | Queue (l : list coord)
  | Bag (s : gset coord).

(** The process-wide generator of the [random] module: an arbitrary stream
    of draws and the number of draws consumed so far. *)
Record rng := Rng {
  stream : nat → nat;
  drawn : nat
}.

(** The mutable attributes of a [ColorEnv] object. [board] is the layer
    [self.state[:,:,0]] and [marker] the layer [self.state[:,:,1]]. *)
Record env := Env {
  free_coords : pool;
  board : grid;
  marker : grid;
  counter : nat;
  done : bool;
  current_loc : coord;
  random_state : rng
}.

(** What [_get_state_agent_view] hands out: the stacked array, or its
    flattening to one dimension. *)
Inductive observation :=
  | Stacked (b m : grid)
  | Flat (l : list Z).

(** The list returned by [step]; its fourth component is always the empty
    dictionary and is left out. *)
Record step_result := Result {
  obs : observation;
  reward : Z;
  terminal : bool
}.

(** The assertions of [_check_rep], by their messages: "n must be positive
    and non-zero", "there are still coords remaining", "there are empty
    spaces", "the counter is not correct", "the board is filled but not
    marked as done", "the count is off", "there none or too many current
    placement locations specified". *)
Inductive rep_error :=
  | SideNotPositive
  | CoordsRemaining
  | EmptySpaces
  | CounterNotCorrect
  | FilledNotDone
  | CountOff
  | MarkerCount.

(** The outcome of [_check_rep]: it returns, or an assertion fails. *)
Inductive check :=
  | Passed
  | Failed (e : rep_error).

(** ** Arrays *)

(** [np.zeros((k, k))] *)
Definition zeros (k : nat) : grid := replicate k (replicate k 0%Z).

(** Reading [g[i, j]]; [None] stands for numpy's [IndexError]. *)
Definition grid_get (g : grid) (i j : nat) : option Z :=
  row ← g !! i; row !! j.

(** The assignment [g[i, j] = v]; [None] stands for numpy's [IndexError]. *)
Definition grid_set (g : grid) (i j : nat) (v : Z) : option grid :=
  row ← g !! i;
  if decide (j < length row) then Some (<[i := <[j := v]> row]> g) else None.

(** numpy resolves an integer index [k] on an axis of length [len]:
    a negative index counts from the end. *)
Definition np_index (len : nat) (k : Z) : option nat :=
  if decide (0 ≤ k < Z.of_nat len)%Z then Some (Z.to_nat k)
  else if decide (- Z.of_nat len ≤ k < 0)%Z then Some (Z.to_nat (k + Z.of_nat len))
  else None.

(** Reading [g[i, j]] for arbitrary integer indices. *)
Definition np_get (g : grid) (i j : Z) : option Z :=
  i' ← np_index (length g) i;
  row ← g !! i';
  j' ← np_index (length row) j;
  row !! j'.

(** [_num_nonzero]: the number of non-zero entries of a layer. *)
Definition _num_nonzero (g : grid) : nat :=
  sum_list (map (λ row : list Z, length (filter (λ x : Z, x ≠ 0%Z) row)) g).

(** [state.flatten()] in C order: for each cell, the board entry followed by
    the marker entry. *)
Definition flatten_state (b m : grid) : list Z :=
  concat (zip_with (λ rb rm : list Z,
                      concat (zip_with (λ x y : Z, [x; y]) rb rm)) b m).

(** All entries of an observation, whatever its shape. *)
Definition obs_entries (o : observation) : list Z :=
  match o with
  | Stacked b m => concat b ++ concat m
  | Flat l => l
  end.

(** ** The free-coordinate pool *)

(** The coordinates in the order of the two nested loops of
    [_new_free_coords]. *)
Definition all_coords (k : nat) : list coord :=
  flat_map (λ i, map (λ j, (i, j)) (seq 0 k)) (seq 0 k).

(** [random.choice(tuple(xs))]: the element at a drawn position;
    [None] stands for the [IndexError] raised on an empty sequence. *)
Definition choice (g : rng) (xs : list coord) : option (coord * rng) :=
  match xs with
  | [] => None
  | _ =>
      c ← xs !! (stream g (drawn g) mod length xs);
      Some (c, Rng (stream g) (S (drawn g)))
  end.

(** [l.remove(c)] on a Python list: the first occurrence goes. *)
Fixpoint list_remove_first (c : coord) (l : list coord) : list coord :=
  match l with
  | [] => []
  | x :: l' => if decide (x = c) then l' else x :: list_remove_first c l'
  end.

(** [len(self.free_coords)] *)
Definition pool_size (p : pool) : nat :=
  match p with
  | Queue l => length l
  | Bag s => size s
  end.

(** The branch shared by [_first_location] and [_get_next_location]:
    [pop(0)] under ordered placement, otherwise [random.choice] followed by
    [remove]. [None] stands for a raised exception ([pop(0)] on an empty
    list or on a set, [random.choice] on an empty collection). *)
Definition take_location (ordered : bool) (p : pool) (g : rng)
  : option (coord * pool * rng) :=
  if ordered then
    match p with
    | Queue (c :: l) => Some (c, Queue l, g)
    | _ => None
    end
  else
    match p with
    | Bag s =>
        '(c, g') ← choice g (elements s);
        Some (c, Bag (s ∖ {[ c ]}), g')
    | Queue l =>
        '(c, g') ← choice g l;
        Some (c, Queue (list_remove_first c l), g')
    end.

Section ColorEnv.

Variable cfg : config.

(** [_new_free_coords] *)
Definition _new_free_coords : pool :=
  if ordered_placement cfg then Queue (all_coords (n cfg))
  else Bag (list_to_set (all_coords (n cfg))).

(** [_first_location]: draws the first target from the pool. *)
Definition _first_location (p : pool) (g : rng) : option (coord * pool * rng) :=
  take_location (ordered_placement cfg) p g.

(** [_get_state_agent_view] *)
Definition _get_state_agent_view (st : env) : observation :=
  if flatten cfg then Flat (flatten_state (board st) (marker st))
  else Stacked (board st) (marker st).

(** [__init__], after the configuration has been read; [g] is the state of
    the generator once the optional seed has been applied. *)
Definition init (g : rng) : option env :=
  '(c, p, g') ← _first_location _new_free_coords g;
  m ← grid_set (zeros (n cfg)) c.1 c.2 1%Z;
  Some (Env p (zeros (n cfg)) m 0 false c g').

(** [_get_next_location]: the assertion on the pool, the draw, and the move
    of the marker from the old target to the new one. *)
Definition _get_next_location (st : env) : option env :=
  if decide (pool_size (free_coords st) = 0) then None
  else
    '(new_loc, p, g') ← take_location (ordered_placement cfg)
                                      (free_coords st) (random_state st);
    m0 ← grid_set (marker st) (current_loc st).1 (current_loc st).2 0%Z;
    m1 ← grid_set m0 new_loc.1 new_loc.2 1%Z;
    Some (Env p (board st) m1 (counter st) (done st) new_loc g').

(** One comparison of the main scan of [_check_legal_board]: the cell
    against the one below it, then against the one to its right. *)
Definition clash_at (b : grid) (ij : coord) : option bool :=
  x ← grid_get b ij.1 ij.2;
  below ← grid_get b (ij.1 + 1) ij.2;
  if decide (x = below) then Some true
  else right ← grid_get b ij.1 (ij.2 + 1); Some (bool_decide (x = right)).

(** The two nested loops of the main scan, stopping at the first clash. *)
Fixpoint scan (b : grid) (cells : list coord) : option bool :=
  match cells with
  | [] => Some false
  | ij :: cells' =>
      c ← clash_at b ij;
      if c : bool then Some true else scan b cells'
  end.

(** [_check_legal_board] *)
Definition _check_legal_board (st : env) : option bool :=
  if disable_checking cfg then Some true
  else
    let b := board st in
    let k := Z.of_nat (n cfg) in
    found ← scan b (all_coords (n cfg - 1));
    if found : bool then Some false
    else
      bot_right ← np_get b (k - 1) (k - 1);
      above ← np_get b (k - 2) (k - 1);
      if decide (bot_right = above) then Some false
      else
        left ← np_get b (k - 1) (k - 2);
        if decide (bot_right = left) then Some false else Some true.

(** [step] *)
Definition step (action : Z) (st : env) : option (env * step_result) :=
  let action := (action + 1)%Z in
  if decide (action > num_colors cfg ∨ action ≤ 0)%Z then
    Some (st, Result (_get_state_agent_view st) (-1) (done st))
  else if done st then
    Some (st, Result (_get_state_agent_view st) 0 (done st))
  else
    let counter' := S (counter st) in
    let loc := current_loc st in
    b' ← grid_set (board st) loc.1 loc.2 action;
    let reward := if maximize_red cfg && bool_decide (action = 1%Z) then 1%Z else 0%Z in
    if decide (counter' = n cfg * n cfg) then
      m' ← grid_set (marker st) loc.1 loc.2 0%Z;
      let st' := Env (free_coords st) b' m' counter' true loc (random_state st) in
      legal ← _check_legal_board st';
      let reward :=
        if legal : bool then 1%Z
        else if maximize_red cfg then (-100)%Z else 0%Z in
      Some (st', Result (_get_state_agent_view st') reward (done st'))
    else
      st' ← _get_next_location
               (Env (free_coords st) b' (marker st) counter' (done st) loc
                    (random_state st));
      Some (st', Result (_get_state_agent_view st') reward (done st')).

(** [reset]. The integer [0] stored in [self.done] is Python's false. *)
Definition reset (st : env) : option (env * observation) :=
  '(c, p, g') ← _first_location _new_free_coords (random_state st);
  let st' := Env p (zeros (n cfg)) (zeros (n cfg)) 0 false c g' in
  Some (st', _get_state_agent_view st').

(** Feeding a list of actions to [step], collecting every state passed
    through and every result returned. *)
Fixpoint run (actions : list Z) (st : env)
  : option (list (env * step_result)) :=
  match actions with
  | [] => Some []
  | a :: actions' =>
      '(st', r) ← step a st;
      rest ← run actions' st';
      Some ((st', r) :: rest)
  end.

(** The assertions of [_check_rep], in the order the code makes them; the
    result names the first one that fails. *)
Definition _check_rep (st : env) : check :=
  if decide (0 < n cfg) then
    if done st then
      if decide (pool_size (free_coords st) = 0) then
        if decide (_num_nonzero (board st) = n cfg * n cfg) then
          if decide (counter st = n cfg * n cfg) then Passed
          else Failed CounterNotCorrect
        else Failed EmptySpaces
      else Failed CoordsRemaining
    else
      let num_pieces := _num_nonzero (board st) in
      if decide (num_pieces ≠ n cfg * n cfg) then
        if decide (num_pieces = counter st) then
          if decide (_num_nonzero (marker st) = 1) then Passed
          else Failed MarkerCount
        else Failed CountOff
      else Failed FilledNotDone
  else Failed SideNotPositive.

(** ** Reachable states and the representation invariant *)

(** The states an environment object can be in: built by [__init__], then
    driven by any interleaving of [step] and [reset] calls. *)
Inductive reachable : env → Prop :=
  | reach_init g st :
      init g = Some st → reachable st
  | reach_reset st st' o :
      reachable st → reset st = Some (st', o) → reachable st'
  | reach_step st a st' r :
      reachable st → step a st = Some (st', r) → reachable st'.

(** The states of an object on which [reset] was never called. *)
Inductive played : env → Prop :=
  | played_init g st :
      init g = Some st → played st
  | played_step st a st' r :
      played st → step a st = Some (st', r) → played st'.

(** The start of an episode: right after construction or after a reset. *)
Definition fresh (st : env) : Prop :=
  (∃ g, init g = Some st) ∨
  (∃ st0 o, reachable st0 ∧ reset st0 = Some (st, o)).

(** A raw agent action that [step] accepts as a colour. *)
Definition valid_action (a : Z) : Prop := (0 ≤ a ≤ num_colors cfg - 1)%Z.

Definition pool_elem (c : coord) (p : pool) : Prop :=
  match p with
  | Queue l => c ∈ l
  | Bag s => c ∈ s
  end.

(** The pool has the shape its placement mode gives it. *)
Definition pool_wf (p : pool) : Prop :=
  match p with
  | Queue l => ordered_placement cfg = true ∧ NoDup l
  | Bag _ => ordered_placement cfg = false
  end.

Definition in_grid (c : coord) : Prop := c.1 < n cfg ∧ c.2 < n cfg.

Definition is_square (g : grid) : Prop :=
  length g = n cfg ∧ Forall (λ row : list Z, length row = n cfg) g.

(** A board entry: empty, or one of the colours. *)
Definition cell_ok (x : Z) : Prop := x = 0%Z ∨ (1 ≤ x ≤ num_colors cfg)%Z.

(** What [_check_rep] is after, strengthened to what the transitions
    preserve. The current target and the coordinates still in the pool are
    distinct empty cells of the board. *)
Record Inv (st : env) : Prop := {
  inv_side : 0 < n cfg;
  inv_board : is_square (board st);
  inv_cells : Forall (Forall cell_ok) (board st);
  inv_count : counter st = _num_nonzero (board st);
  inv_pool : pool_wf (free_coords st);
  inv_marker :
    marker st = zeros (n cfg) ∨
    (done st = false ∧
     grid_set (zeros (n cfg)) (current_loc st).1 (current_loc st).2 1%Z
       = Some (marker st));
  inv_terminal :
    done st = true → counter st = n cfg * n cfg ∧ marker st = zeros (n cfg);
  inv_active :
    done st = false →
    pool_size (free_coords st) + counter st + 1 = n cfg * n cfg ∧
    grid_get (board st) (current_loc st).1 (current_loc st).2 = Some 0%Z ∧
    ¬ pool_elem (current_loc st) (free_coords st) ∧
    ∀ c, pool_elem c (free_coords st) →
         grid_get (board st) c.1 c.2 = Some 0%Z
}.

(** Under ordered placement the pool is the rest of the loop order and the
    target is the entry the counter points at. *)
Definition ordered_inv (st : env) : Prop :=
  if done st then
    counter st = n cfg * n cfg ∧
    all_coords (n cfg) !! (n cfg * n cfg - 1) = Some (current_loc st)
  else
    free_coords st = Queue (drop (S (counter st)) (all_coords (n cfg))) ∧
    all_coords (n cfg) !! counter st = Some (current_loc st).

(** An observation [o] handed out in state [st]: it is the agent view of
    the state, board entries are empty or a colour, marker entries are 0 or
    1, and every entry stays within [0, num_colors]. *)
Definition bounded_observation (st : env) (o : observation) : Prop :=
  o = _get_state_agent_view st ∧
  Forall (Forall cell_ok) (board st) ∧
  Forall (Forall (λ x : Z, x = 0%Z ∨ x = 1%Z)) (marker st) ∧
  Forall (λ x : Z, (0 ≤ x ≤ num_colors cfg)%Z ∧ x ≠ (num_colors cfg + 1)%Z)
         (obs_entries o).

(** The position of the current target in the loop order. *)
Definition target_index (st : env) : nat :=
  if done st then n cfg * n cfg - 1 else counter st.

End ColorEnv.

(** A list with runs of equal neighbours collapsed to one entry: the
    targets visited, read off the targets seen after each call. *)
Fixpoint compress (l : list coord) : list coord :=
  match l with
  | [] => []
  | x :: l' =>
      match l' with
      | [] => [x]
      | y :: _ => if decide (x = y) then compress l' else x :: compress l'
      end
  end.

(** Two cells that share an edge, in a [k x k] grid. *)
Definition adjacent (k : nat) (c d : coord) : Prop :=
  c.1 < k ∧ c.2 < k ∧ d.1 < k ∧ d.2 < k ∧
  ((c.1 = d.1 ∧ S c.2 = d.2) ∨ (S c.1 = d.1 ∧ c.2 = d.2)).

(** The comparisons [_check_legal_board] makes on a board of side [k]: each
    cell outside the last row and the last column against the cell below it
    and the cell to its right, and the bottom-right corner against the cell
    above it and the cell to its left. *)
Definition checked_clash (k : nat) (b : grid) : Prop :=
  (∃ i j x, S i < k ∧ S j < k ∧ grid_get b i j = Some x ∧
            (grid_get b (S i) j = Some x ∨ grid_get b i (S j) = Some x)) ∨
  (∃ x, grid_get b (k - 1) (k - 1) = Some x ∧
        (grid_get b (k - 2) (k - 1) = Some x ∨
         grid_get b (k - 1) (k - 2) = Some x)).

(** Two cells that share an edge hold the same entry. *)
Definition adjacent_clash (k : nat) (b : grid) : Prop :=
  ∃ c d x, adjacent k c d ∧
           grid_get b c.1 c.2 = Some x ∧ grid_get b d.1 d.2 = Some x.

(** Every cell of the board holds one of the colours. *)
Definition filled (cfg : config) (b : grid) : Prop :=
  length b = n cfg ∧
  Forall (λ row : list Z,
            length row = n cfg ∧
            Forall (λ x : Z, (1 ≤ x ≤ num_colors cfg)%Z) row) b.

(** ** Concrete configurations *)

Definition cfg_2x2 : config := Config 2 2 true true false false.

Definition cfg_3x3 : config := Config 3 3 false true false false.

Definition rng0 : rng := Rng (λ _, 0) 0.

(** The last state of a run, if every call returned. *)
Definition final_state (cfg : config) (actions : list Z) (st : env)
  : option env :=
  l ← run cfg actions st; Some (default st (last (map fst l))).

(** What a caller can tell of a call to [step] apart from the marker
    layer: the board, the counter, the target, the reward and the flag. *)
Definition outcome (p : env * step_result)
  : grid * nat * coord * Z * bool :=
  (board p.1, counter p.1, current_loc p.1, reward p.2, terminal p.2).

(** Two states that agree on everything but the marker layer and the
    generator. *)
Definition same_play (s1 s2 : env) : Prop :=
  free_coords s1 = free_coords s2 ∧ board s1 = board s2 ∧
  counter s1 = counter s2 ∧ done s1 = done s2 ∧
  current_loc s1 = current_loc s2.

(** The targets seen at the start of a run and after each of its calls. *)
Definition targets_seen (st : env) (l : list (env * step_result))
  : list coord :=
  current_loc st :: map (λ p, current_loc p.1) l.

(** The [2 x 2] environment right after construction, and at the end of the
    episode that plays the raw actions [0; 1; 1; 0]. *)
Definition start_2x2 : env :=
  Env (Queue [(0, 1); (1, 0); (1, 1)]) (zeros 2) [[1; 0]; [0; 0]]%Z
      0 false (0, 0) rng0.

Definition end_2x2 : env :=
  Env (Queue []) [[1; 2]; [2; 1]]%Z (zeros 2) 4 true (1, 1) rng0.

(** The same episode one call before its end, and the state a reset
    leaves behind. *)
Definition last_move_2x2 : env :=
  Env (Queue []) [[1; 2]; [2; 0]]%Z [[0; 0]; [0; 1]]%Z 3 false (1, 1) rng0.

Definition after_reset_2x2 : env :=
  Env (Queue [(0, 1); (1, 0); (1, 1)]) (zeros 2) (zeros 2)
      0 false (0, 0) rng0.

(** The end of the [2 x 2] episode that plays [0; 1; 0; 1]: the first
    column repeats colour 1. *)
Definition illegal_end_2x2 : env :=
  Env (Queue []) [[1; 2]; [1; 2]]%Z (zeros 2) 4 true (1, 1) rng0.

(** A board of a single cell, with checking enabled. *)
Definition cfg_1x1 : config := Config 1 3 true true false false.

Definition start_1x1 : env :=
  Env (Queue []) (zeros 1) [[1]]%Z 0 false (0, 0) rng0.

(** A [2 x 2] board with checking disabled, one call before the end of the
    episode that colours every cell with colour 1. *)
Definition cfg_unchecked : config := Config 2 2 false true true false.

Definition last_move_unchecked : env :=
  Env (Queue []) [[1; 1]; [1; 0]]%Z [[0; 0]; [0; 1]]%Z 3 false (1, 1) rng0.

(** Random placement with a flattened view, and a generator whose draws
    are 3, 10, 17, ... *)
Definition cfg_random : config := Config 2 3 false false false true.

Definition rng_affine : rng := Rng (λ k, k * 7 + 3) 0.

(** A full [3 x 3] board whose last column repeats colour 3 in rows 0 and
    1, and the terminal state of the episode that builds it. *)
Definition board_3x3 : grid := [[1; 2; 3]; [2; 1; 3]; [1; 2; 1]]%Z.

Definition actions_3x3 : list Z := [0; 1; 2; 1; 0; 2; 0; 1; 0]%Z.

Definition end_3x3 : env :=
  Env (Queue []) board_3x3 (zeros 3) 9 true (2, 2) rng0.
(** ** Arrays: reads, writes and counting *)

Definition nz (x : Z) : nat := if decide (x ≠ 0%Z) then 1 else 0.

Lemma filter_length_insert (row : list Z) (j : nat) (x v : Z) :
  row !! j = Some x →
  length (filter (λ y : Z, y ≠ 0%Z) (<[j := v]> row)) + nz x
  = length (filter (λ y : Z, y ≠ 0%Z) row) + nz v.
Proof.
  revert j. induction row as [|y row IH]; intros [|j] Hj; simplify_eq/=.
  - rewrite !filter_cons. unfold nz.
    repeat case_decide; simpl; lia.
  - specialize (IH _ Hj). rewrite !filter_cons.
    case_decide; simpl; lia.
Qed.

Lemma sum_list_insert (f : list Z → nat) (g : grid) (i : nat) (row row' : list Z) :
  g !! i = Some row →
  sum_list (map f (<[i := row']> g)) + f row = sum_list (map f g) + f row'.
Proof.
  revert i. induction g as [|r g IH]; intros [|i] Hi; simplify_eq/=.
  - lia.
  - specialize (IH _ Hi). lia.
Qed.

Lemma grid_set_Some (g g' : grid) (i j : nat) (v : Z) :
  grid_set g i j v = Some g' →
  ∃ row, g !! i = Some row ∧ j < length row ∧ g' = <[i := <[j := v]> row]> g.
Proof.
  unfold grid_set. intros H.
  destruct (g !! i) as [row|] eqn:Hrow; simplify_eq/=.
  case_decide; simplify_eq. eauto.
Qed.

Lemma grid_get_Some (g : grid) (i j : nat) (x : Z) :
  grid_get g i j = Some x ↔ ∃ row, g !! i = Some row ∧ row !! j = Some x.
Proof.
  unfold grid_get. destruct (g !! i) as [row|]; simpl.
  - split; [eauto|]. by intros (r & [= <-] & Hx).
  - split; [done|]. by intros (r & [=] & _).
Qed.

Lemma num_nonzero_set (g g' : grid) (i j : nat) (x v : Z) :
  grid_get g i j = Some x →
  grid_set g i j v = Some g' →
  _num_nonzero g' + nz x = _num_nonzero g + nz v.
Proof.
  intros (row & Hrow & Hx)%grid_get_Some (row' & Hrow' & Hj & ->)%grid_set_Some.
  simplify_eq. unfold _num_nonzero.
  pose proof (filter_length_insert row j x v Hx) as Hf.
  pose proof (sum_list_insert
    (λ r : list Z, length (filter (λ y : Z, y ≠ 0%Z) r)) g i row (<[j := v]> row) Hrow) as Hs.
  simpl in Hs. lia.
Qed.

Lemma grid_get_set_eq (g g' : grid) (i j : nat) (v : Z) :
  grid_set g i j v = Some g' → grid_get g' i j = Some v.
Proof.
  intros (row & Hrow & Hj & ->)%grid_set_Some.
  apply grid_get_Some. exists (<[j := v]> row). split.
  - apply list_lookup_insert_eq. by eapply lookup_lt_Some.
  - by apply list_lookup_insert_eq.
Qed.

Lemma grid_get_set_ne (g g' : grid) (i j i' j' : nat) (v : Z) :
  grid_set g i j v = Some g' → (i, j) ≠ (i', j') →
  grid_get g' i' j' = grid_get g i' j'.
Proof.
  intros (row & Hrow & Hj & ->)%grid_set_Some Hne.
  unfold grid_get. destruct (decide (i = i')) as [->|Hi].
  - rewrite list_lookup_insert_eq by (by eapply lookup_lt_Some).
    rewrite Hrow. simpl. apply list_lookup_insert_ne. congruence.
  - by rewrite list_lookup_insert_ne.
Qed.

Lemma grid_set_set (g g1 : grid) (i j : nat) (v w : Z) :
  grid_set g i j v = Some g1 →
  grid_set g1 i j w = grid_set g i j w.
Proof.
  intros (row & Hrow & Hj & ->)%grid_set_Some.
  unfold grid_set. rewrite Hrow. simpl.
  rewrite list_lookup_insert_eq by (by eapply lookup_lt_Some). simpl.
  rewrite length_insert. case_decide; [|done].
  by rewrite !list_insert_insert_eq.
Qed.

Lemma grid_set_id (g : grid) (i j : nat) (x : Z) :
  grid_get g i j = Some x → grid_set g i j x = Some g.
Proof.
  intros (row & Hrow & Hx)%grid_get_Some.
  unfold grid_set. rewrite Hrow. simpl.
  rewrite decide_True by (by eapply lookup_lt_Some).
  by rewrite (list_insert_id row), list_insert_id.
Qed.

Lemma zeros_lookup (k i : nat) :
  i < k → zeros k !! i = Some (replicate k 0%Z).
Proof. intros Hi. unfold zeros. by apply lookup_replicate_2. Qed.

Lemma grid_get_zeros (k i j : nat) :
  i < k → j < k → grid_get (zeros k) i j = Some 0%Z.
Proof.
  intros Hi Hj. apply grid_get_Some. exists (replicate k 0%Z).
  split; [by apply zeros_lookup | by apply lookup_replicate_2].
Qed.

Lemma num_nonzero_zeros (k : nat) : _num_nonzero (zeros k) = 0.
Proof.
  unfold _num_nonzero, zeros. generalize k at 1. intros m.
  induction m as [|m IH]; simpl; [done|].
  rewrite IH. clear IH. induction k as [|k IH]; simpl; [done|].
  rewrite filter_cons. by case_decide.
Qed.

Lemma Forall_zeros (P : Z → Prop) (k : nat) :
  P 0%Z → Forall (Forall P) (zeros k).
Proof.
  intros HP. unfold zeros. apply Forall_replicate. by apply Forall_replicate.
Qed.

Lemma grid_set_Forall (P : Z → Prop) (g g' : grid) (i j : nat) (v : Z) :
  grid_set g i j v = Some g' → P v →
  Forall (Forall P) g → Forall (Forall P) g'.
Proof.
  intros (row & Hrow & Hj & ->)%grid_set_Some Hv Hg.
  apply Forall_insert; [done|].
  apply Forall_insert; [|done].
  by eapply Forall_lookup_1 in Hg.
Qed.

Lemma grid_set_length (g g' : grid) (i j : nat) (v : Z) :
  grid_set g i j v = Some g' → length g' = length g.
Proof.
  intros (row & Hrow & Hj & ->)%grid_set_Some. by rewrite length_insert.
Qed.

Lemma grid_set_rows (k : nat) (g g' : grid) (i j : nat) (v : Z) :
  grid_set g i j v = Some g' →
  Forall (λ row : list Z, length row = k) g →
  Forall (λ row : list Z, length row = k) g'.
Proof.
  intros (row & Hrow & Hj & ->)%grid_set_Some Hg.
  apply Forall_insert; [done|]. rewrite length_insert.
  by eapply Forall_lookup_1 in Hg.
Qed.

Lemma grid_set_is_Some (k : nat) (g : grid) (i j : nat) (v : Z) :
  length g = k → Forall (λ row : list Z, length row = k) g →
  i < k → j < k → is_Some (grid_set g i j v).
Proof.
  intros Hlen Hrows Hi Hj. unfold grid_set.
  destruct (lookup_lt_is_Some_2 g i) as [row Hrow]; [lia|].
  rewrite Hrow. simpl.
  eapply Forall_lookup_1 in Hrows; [|done]. simpl in Hrows.
  rewrite decide_True by lia. eauto.
Qed.

Lemma grid_get_lt (k : nat) (g : grid) (i j : nat) (x : Z) :
  length g = k → Forall (λ row : list Z, length row = k) g →
  grid_get g i j = Some x → i < k ∧ j < k.
Proof.
  intros Hlen Hrows (row & Hrow & Hx)%grid_get_Some.
  split.
  - apply lookup_lt_Some in Hrow. lia.
  - eapply Forall_lookup_1 in Hrows; [|done]. simpl in Hrows.
    apply lookup_lt_Some in Hx. lia.
Qed.

Lemma grid_get_is_Some (k : nat) (g : grid) (i j : nat) :
  length g = k → Forall (λ row : list Z, length row = k) g →
  i < k → j < k → is_Some (grid_get g i j).
Proof.
  intros Hlen Hrows Hi Hj. unfold grid_get.
  destruct (lookup_lt_is_Some_2 g i) as [row Hrow]; [lia|].
  rewrite Hrow. simpl.
  eapply Forall_lookup_1 in Hrows; [|done]. simpl in Hrows.
  apply lookup_lt_is_Some_2. lia.
Qed.

Lemma zeros_length (k : nat) : length (zeros k) = k.
Proof. unfold zeros. by rewrite length_replicate. Qed.

Lemma zeros_rows (k : nat) :
  Forall (λ row : list Z, length row = k) (zeros k).
Proof. unfold zeros. apply Forall_replicate. by rewrite length_replicate. Qed.

(** ** The loop order of the coordinates *)

Lemma coords_from_lookup (k a len i j : nat) :
  i < len → j < k →
  flat_map (λ i, map (λ j, (i, j)) (seq 0 k)) (seq a len) !! (i * k + j)
  = Some (a + i, j).
Proof.
  revert a i. induction len as [|len IH]; intros a i Hi Hj; [lia|].
  simpl. destruct i as [|i].
  - rewrite lookup_app_l by (rewrite length_map, length_seq; lia).
    simpl. rewrite list_lookup_fmap, lookup_seq_lt by lia. simpl.
    do 2 f_equal. lia.
  - rewrite lookup_app_r by (rewrite length_map, length_seq; lia).
    rewrite length_map, length_seq.
    replace (S i * k + j - k) with (i * k + j) by lia.
    rewrite IH by lia. do 2 f_equal. lia.
Qed.

Lemma all_coords_lookup (k i j : nat) :
  i < k → j < k → all_coords k !! (i * k + j) = Some (i, j).
Proof. intros Hi Hj. unfold all_coords. by rewrite coords_from_lookup. Qed.

Lemma all_coords_length (k : nat) : length (all_coords k) = k * k.
Proof.
  unfold all_coords.
  assert (Hl : ∀ l : list nat,
    length (flat_map (λ i, map (λ j, (i, j)) (seq 0 k)) l) = length l * k).
  { induction l as [|a l IH]; simpl; [done|].
    by rewrite length_app, length_map, length_seq, IH. }
  by rewrite Hl, length_seq.
Qed.

Lemma elem_of_all_coords (k : nat) (c : coord) :
  c ∈ all_coords k ↔ c.1 < k ∧ c.2 < k.
Proof.
  unfold all_coords. rewrite list_elem_of_In, in_flat_map. split.
  - intros (i & Hi%in_seq & Hc%in_map_iff).
    destruct Hc as (j & <- & Hj%in_seq). simpl. lia.
  - intros [H1 H2]. exists c.1. split; [apply in_seq; lia|].
    apply in_map_iff. exists c.2. split; [by destruct c|apply in_seq; lia].
Qed.

Lemma all_coords_NoDup (k : nat) : NoDup (all_coords k).
Proof.
  unfold all_coords.
  assert (Hl : ∀ l : list nat, NoDup l →
    NoDup (flat_map (λ i, map (λ j, (i, j)) (seq 0 k)) l));
    [|apply Hl, NoDup_seq].
  induction l as [|a l IH]; intros Hnd; simpl; [constructor|].
  apply NoDup_cons in Hnd as [Ha Hnd].
  apply NoDup_app. split_and!.
  - apply NoDup_fmap_2; [|apply NoDup_seq]. intros x y. congruence.
  - intros c Hc%list_elem_of_fmap Hc'%list_elem_of_In%in_flat_map.
    destruct Hc as (j & -> & _).
    destruct Hc' as (i & Hi & Hj%in_map_iff).
    destruct Hj as (j' & [= -> ->] & _).
    by apply Ha, list_elem_of_In.
  - by apply IH.
Qed.

(** ** Drawing from the pool *)

Lemma choice_Some (g g' : rng) (xs : list coord) (c : coord) :
  choice g xs = Some (c, g') → c ∈ xs.
Proof.
  unfold choice. destruct xs as [|x xs]; [done|].
  intros H. destruct (_ !! _) as [d|] eqn:Hd; simplify_eq/=.
  by eapply list_elem_of_lookup_2.
Qed.

Lemma choice_is_Some (g : rng) (xs : list coord) :
  xs ≠ [] → is_Some (choice g xs).
Proof.
  intros Hxs. unfold choice. destruct xs as [|x xs]; [done|].
  destruct (lookup_lt_is_Some_2 (x :: xs)
              (stream g (drawn g) mod length (x :: xs))) as [d Hd].
  { apply Nat.mod_upper_bound. simpl. lia. }
  rewrite Hd. simpl. eauto.
Qed.

Section Pool.

Variable cfg : config.

Lemma take_location_spec (p p' : pool) (g g' : rng) (c : coord) :
  pool_wf cfg p →
  take_location (ordered_placement cfg) p g = Some (c, p', g') →
  pool_elem c p ∧ ¬ pool_elem c p' ∧ pool_wf cfg p' ∧
  pool_size p = S (pool_size p') ∧
  (∀ d, pool_elem d p' → pool_elem d p).
Proof.
  unfold take_location. destruct p as [l|s]; simpl.
  - intros [Ho Hnd]. rewrite Ho.
    destruct l as [|x l]; [done|]. intros [= -> <- <-].
    apply NoDup_cons in Hnd as [Hx Hnd]. simpl.
    split_and!; [set_solver|done|done|done|done|set_solver].
  - intros Ho. rewrite Ho. intros H.
    destruct (choice g (elements s)) as [[d g1]|] eqn:Hc; simplify_eq/=.
    apply choice_Some, elem_of_elements in Hc.
    assert (Hsub : ({[c]} : gset coord) ⊆ s).
    { intros x Hx%elem_of_singleton. by subst. }
    split_and!; [done| |done| |].
    + rewrite elem_of_difference, elem_of_singleton. tauto.
    + rewrite size_difference by done. rewrite size_singleton.
      assert (size s ≠ 0); [|lia].
      intros Hs%size_empty_inv. apply Hs in Hc.
      by apply not_elem_of_empty in Hc.
    + intros x Hx%elem_of_difference. tauto.
Qed.

Lemma take_location_is_Some (p : pool) (g : rng) :
  pool_wf cfg p → pool_size p ≠ 0 →
  is_Some (take_location (ordered_placement cfg) p g).
Proof.
  unfold take_location. destruct p as [l|s]; simpl.
  - intros [Ho _] Hl. rewrite Ho. destruct l; [done|eauto].
  - intros Ho Hs. rewrite Ho.
    destruct (choice_is_Some g (elements s)) as [[c g'] Hc].
    { intros He. apply Hs. apply elements_empty_inv in He.
      apply size_empty_iff. done. }
    rewrite Hc. simpl. eauto.
Qed.

Lemma new_free_coords_wf : pool_wf cfg (_new_free_coords cfg).
Proof.
  unfold _new_free_coords. destruct (ordered_placement cfg) eqn:Ho; simpl.
  - split; [done|]. apply all_coords_NoDup.
  - done.
Qed.

Lemma new_free_coords_size :
  pool_size (_new_free_coords cfg) = n cfg * n cfg.
Proof.
  unfold _new_free_coords. destruct (ordered_placement cfg); simpl.
  - apply all_coords_length.
  - rewrite size_list_to_set by apply all_coords_NoDup.
    apply all_coords_length.
Qed.

Lemma new_free_coords_elem (c : coord) :
  pool_elem c (_new_free_coords cfg) ↔ in_grid cfg c.
Proof.
  unfold _new_free_coords, in_grid. destruct (ordered_placement cfg); simpl.
  - apply elem_of_all_coords.
  - rewrite elem_of_list_to_set. apply elem_of_all_coords.
Qed.

End Pool.

(** ** The legality check returns on every square board *)

Lemma np_index_Some (len : nat) (k : Z) :
  (- Z.of_nat len ≤ k < Z.of_nat len)%Z →
  ∃ i, np_index len k = Some i ∧ i < len.
Proof.
  intros Hk. unfold np_index. repeat case_decide; try lia.
  - exists (Z.to_nat k). split; [done|lia].
  - exists (Z.to_nat (k + Z.of_nat len)). split; [done|lia].
Qed.

Lemma np_index_nonneg (len : nat) (i : nat) :
  i < len → np_index len (Z.of_nat i) = Some i.
Proof.
  intros Hi. unfold np_index. rewrite decide_True by lia.
  by rewrite Nat2Z.id.
Qed.

Lemma np_get_nonneg (k : nat) (g : grid) (i j : nat) :
  length g = k → Forall (λ row : list Z, length row = k) g →
  i < k → j < k → np_get g (Z.of_nat i) (Z.of_nat j) = grid_get g i j.
Proof.
  intros Hlen Hrows Hi Hj. unfold np_get, grid_get.
  rewrite np_index_nonneg by lia. simpl.
  destruct (g !! i) as [row|] eqn:Hrow; [simpl|done].
  eapply Forall_lookup_1 in Hrows; [|done]. simpl in Hrows.
  rewrite np_index_nonneg by lia. done.
Qed.

Lemma np_get_is_Some (k : nat) (g : grid) (i j : Z) :
  length g = k → Forall (λ row : list Z, length row = k) g →
  (- Z.of_nat k ≤ i < Z.of_nat k)%Z → (- Z.of_nat k ≤ j < Z.of_nat k)%Z →
  is_Some (np_get g i j).
Proof.
  intros Hlen Hrows Hi Hj. unfold np_get.
  destruct (np_index_Some (length g) i) as (i' & -> & Hi'); [lia|]. simpl.
  destruct (lookup_lt_is_Some_2 g i') as [row Hrow]; [lia|].
  rewrite Hrow. simpl.
  eapply Forall_lookup_1 in Hrows; [|done]. simpl in Hrows.
  destruct (np_index_Some (length row) j) as (j' & -> & Hj'); [lia|]. simpl.
  apply lookup_lt_is_Some_2. lia.
Qed.

Lemma clash_at_is_Some (k : nat) (b : grid) (c : coord) :
  length b = k → Forall (λ row : list Z, length row = k) b →
  S c.1 < k → S c.2 < k → is_Some (clash_at b c).
Proof.
  intros Hlen Hrows H1 H2. unfold clash_at.
  destruct (grid_get_is_Some k b c.1 c.2) as [x ->]; [done|done|lia|lia|].
  destruct (grid_get_is_Some k b (c.1 + 1) c.2) as [y ->];
    [done|done|lia|lia|].
  destruct (grid_get_is_Some k b c.1 (c.2 + 1)) as [z ->];
    [done|done|lia|lia|].
  simpl. case_decide; eauto.
Qed.

Lemma scan_is_Some (k : nat) (b : grid) (cells : list coord) :
  length b = k → Forall (λ row : list Z, length row = k) b →
  Forall (λ c : coord, S c.1 < k ∧ S c.2 < k) cells →
  is_Some (scan b cells).
Proof.
  intros Hlen Hrows. induction 1 as [|c cells [H1 H2] _ IH]; simpl; [eauto|].
  destruct (clash_at_is_Some k b c) as [[] ->]; simpl; eauto.
Qed.

Lemma scan_cells_in_range (k : nat) :
  Forall (λ c : coord, S c.1 < k ∧ S c.2 < k) (all_coords (k - 1)).
Proof.
  apply Forall_forall. intros c Hc%elem_of_all_coords. lia.
Qed.

Lemma check_legal_board_is_Some (cfg : config) (st : env) :
  0 < n cfg → is_square cfg (board st) →
  is_Some (_check_legal_board cfg st).
Proof.
  intros Hn [Hlen Hrows]. unfold _check_legal_board.
  destruct (disable_checking cfg); [eauto|]. simpl.
  destruct (scan_is_Some (n cfg) (board st) (all_coords (n cfg - 1)))
    as [found ->]; [done|done|apply scan_cells_in_range|]. simpl.
  destruct found; [eauto|].
  destruct (np_get_is_Some (n cfg) (board st)
              (Z.of_nat (n cfg) - 1) (Z.of_nat (n cfg) - 1)) as [x ->];
    [done|done|lia|lia|]. simpl.
  destruct (np_get_is_Some (n cfg) (board st)
              (Z.of_nat (n cfg) - 2) (Z.of_nat (n cfg) - 1)) as [y ->];
    [done|done|lia|lia|]. simpl.
  case_decide; [eauto|].
  destruct (np_get_is_Some (n cfg) (board st)
              (Z.of_nat (n cfg) - 1) (Z.of_nat (n cfg) - 2)) as [z ->];
    [done|done|lia|lia|]. simpl.
  case_decide; eauto.
Qed.

(** ** The transitions, case by case *)

Section Transitions.

Variable cfg : config.

Lemma step_out_of_range (a : Z) (st : env) :
  ¬ valid_action cfg a →
  step cfg a st
  = Some (st, Result (_get_state_agent_view cfg st) (-1) (done st)).
Proof.
  unfold valid_action, step. intros Ha. rewrite decide_True by lia. done.
Qed.

Lemma step_after_end (a : Z) (st : env) :
  valid_action cfg a → done st = true →
  step cfg a st = Some (st, Result (_get_state_agent_view cfg st) 0 true).
Proof.
  unfold valid_action, step. intros Ha Hd. rewrite decide_False by lia.
  by rewrite Hd.
Qed.

Lemma Inv_target_in_grid (st : env) :
  Inv cfg st → done st = false → in_grid cfg (current_loc st).
Proof.
  intros HI Hd. destruct (inv_active _ _ HI Hd) as (_ & Hget & _).
  destruct (inv_board _ _ HI) as [Hlen Hrows].
  by eapply grid_get_lt.
Qed.

(** Clearing the marker at the target always leaves the zero layer. *)
Lemma Inv_clear_marker (st : env) :
  Inv cfg st → done st = false →
  grid_set (marker st) (current_loc st).1 (current_loc st).2 0%Z
  = Some (zeros (n cfg)).
Proof.
  intros HI Hd. destruct (Inv_target_in_grid st HI Hd) as [H1 H2].
  destruct (inv_marker _ _ HI) as [->|[_ Hm]].
  - apply grid_set_id. by apply grid_get_zeros.
  - rewrite (grid_set_set _ _ _ _ _ _ Hm).
    apply grid_set_id. by apply grid_get_zeros.
Qed.

Lemma Inv_place (a : Z) (st : env) :
  Inv cfg st → done st = false →
  ∃ b', grid_set (board st) (current_loc st).1 (current_loc st).2 (a + 1)
        = Some b'.
Proof.
  intros HI Hd. destruct (Inv_target_in_grid st HI Hd) as [H1 H2].
  destruct (inv_board _ _ HI) as [Hlen Hrows].
  by eapply grid_set_is_Some.
Qed.

(** The call that colours the last cell. *)
Lemma step_last (a : Z) (st : env) :
  Inv cfg st → valid_action cfg a → done st = false →
  S (counter st) = n cfg * n cfg →
  ∃ b' legal,
    let st' := Env (free_coords st) b' (zeros (n cfg)) (S (counter st)) true
                   (current_loc st) (random_state st) in
    grid_set (board st) (current_loc st).1 (current_loc st).2 (a + 1)
      = Some b' ∧
    _check_legal_board cfg st' = Some legal ∧
    step cfg a st
    = Some (st', Result (_get_state_agent_view cfg st')
                   (if legal then 1 else
                      if maximize_red cfg then -100 else 0)%Z true).
Proof.
  intros HI Ha Hd Hc. destruct (Inv_place a st HI Hd) as [b' Hb'].
  destruct (inv_board _ _ HI) as [Hlen Hrows].
  destruct (check_legal_board_is_Some cfg
    (Env (free_coords st) b' (zeros (n cfg)) (S (counter st)) true
         (current_loc st) (random_state st))) as [legal Hlegal].
  { apply (inv_side _ _ HI). }
  { split; simpl.
    - by rewrite (grid_set_length _ _ _ _ _ Hb').
    - by eapply grid_set_rows. }
  exists b', legal. simpl. split_and!; [done|done|].
  unfold valid_action in Ha. unfold step.
  rewrite decide_False by lia. rewrite Hd. simpl. rewrite Hb'. simpl.
  rewrite decide_True by done.
  rewrite (Inv_clear_marker st HI Hd). simpl.
  rewrite Hlegal. simpl. done.
Qed.

(** A call that colours a cell and moves on to the next target. *)
Lemma step_next (a : Z) (st : env) :
  Inv cfg st → valid_action cfg a → done st = false →
  S (counter st) ≠ n cfg * n cfg →
  ∃ b' new_loc p g' m',
    let st' := Env p b' m' (S (counter st)) false new_loc g' in
    grid_set (board st) (current_loc st).1 (current_loc st).2 (a + 1)
      = Some b' ∧
    pool_size (free_coords st) ≠ 0 ∧
    take_location (ordered_placement cfg) (free_coords st) (random_state st)
      = Some (new_loc, p, g') ∧
    grid_set (zeros (n cfg)) new_loc.1 new_loc.2 1%Z = Some m' ∧
    step cfg a st
    = Some (st', Result (_get_state_agent_view cfg st')
                   (if maximize_red cfg && bool_decide (a + 1 = 1)%Z
                    then 1 else 0)%Z false).
Proof.
  intros HI Ha Hd Hc. destruct (Inv_place a st HI Hd) as [b' Hb'].
  destruct (inv_active _ _ HI Hd) as (Hsize & Hget & Hnotin & Hfree).
  assert (Hne : pool_size (free_coords st) ≠ 0) by lia.
  destruct (take_location_is_Some cfg (free_coords st) (random_state st))
    as [[[new_loc p] g'] Htake]; [apply (inv_pool _ _ HI)|done|].
  destruct (take_location_spec cfg _ _ _ _ _ (inv_pool _ _ HI) Htake)
    as (Hin & _).
  destruct (grid_get_lt (n cfg) (board st) new_loc.1 new_loc.2 0%Z)
    as [H1 H2]; [apply (inv_board _ _ HI)|apply (inv_board _ _ HI)|auto|].
  destruct (grid_set_is_Some (n cfg) (zeros (n cfg)) new_loc.1 new_loc.2 1%Z)
    as [m' Hm']; [apply zeros_length|apply zeros_rows|done|done|].
  exists b', new_loc, p, g', m'. simpl. split_and!; [done|done|done|done|].
  unfold valid_action in Ha. unfold step.
  rewrite decide_False by lia. rewrite Hd. simpl. rewrite Hb'. simpl.
  rewrite decide_False by done.
  unfold _get_next_location. simpl.
  rewrite decide_False by done. rewrite Htake. simpl.
  rewrite (Inv_clear_marker st HI Hd). simpl. rewrite Hm'. simpl.
  done.
Qed.

End Transitions.

(** ** The invariant holds in every reachable state *)

Section Preservation.

Variable cfg : config.

Lemma start_Inv (c : coord) (p : pool) (g g' : rng) (m : grid) :
  _first_location cfg (_new_free_coords cfg) g = Some (c, p, g') →
  m = zeros (n cfg) ∨
    grid_set (zeros (n cfg)) c.1 c.2 1%Z = Some m →
  Inv cfg (Env p (zeros (n cfg)) (zeros (n cfg)) 0 false c g') ∧
  Inv cfg (Env p (zeros (n cfg)) m 0 false c g').
Proof.
  unfold _first_location. intros Htake Hm.
  destruct (take_location_spec cfg _ _ _ _ _ (new_free_coords_wf cfg) Htake)
    as (Hin & Hnotin & Hwf & Hsize & Hsub).
  rewrite new_free_coords_size in Hsize.
  apply new_free_coords_elem in Hin. destruct Hin as [H1 H2].
  assert (Hact : pool_size p + 0 + 1 = n cfg * n cfg ∧
    grid_get (zeros (n cfg)) c.1 c.2 = Some 0%Z ∧ ¬ pool_elem c p ∧
    ∀ d, pool_elem d p → grid_get (zeros (n cfg)) d.1 d.2 = Some 0%Z).
  { split_and!; [lia|by apply grid_get_zeros|done|].
    intros d Hd%Hsub%new_free_coords_elem. destruct Hd.
    by apply grid_get_zeros. }
  split; constructor; simpl; try done.
  all: try (lia || (split; [apply zeros_length|apply zeros_rows])
            || (apply Forall_zeros; by left)
            || (by rewrite num_nonzero_zeros)).
  - by left.
  - destruct Hm as [->|Hm]; [by left|by right].
Qed.

Lemma init_Inv (g : rng) (st : env) : init cfg g = Some st → Inv cfg st.
Proof.
  unfold init. intros H.
  destruct (_first_location _ _ _) as [[[c p] g']|] eqn:Htake;
    simplify_eq/=.
  destruct (grid_set _ _ _ _) as [m|] eqn:Hm; simplify_eq/=.
  eapply start_Inv; eauto.
Qed.

Lemma reset_Inv (st st' : env) (o : observation) :
  reset cfg st = Some (st', o) → Inv cfg st'.
Proof.
  unfold reset. intros H.
  destruct (_first_location _ _ _) as [[[c p] g']|] eqn:Htake;
    simplify_eq/=.
  eapply (start_Inv c p _ g' (zeros (n cfg))); eauto.
Qed.

Lemma step_Inv (a : Z) (st st' : env) (r : step_result) :
  Inv cfg st → step cfg a st = Some (st', r) → Inv cfg st'.
Proof.
  intros HI Hstep.
  destruct (decide (valid_action cfg a)) as [Ha|Ha];
    [|rewrite step_out_of_range in Hstep by done; by simplify_eq].
  destruct (done st) eqn:Hd;
    [rewrite step_after_end in Hstep by done; by simplify_eq|].
  destruct (inv_active _ _ HI Hd) as (Hsize & Hget & Hnotin & Hfree).
  destruct (inv_board _ _ HI) as [Hlen Hrows].
  assert (Hnz : nz (a + 1) = 1).
  { unfold nz, valid_action in *. rewrite decide_True by lia. done. }
  assert (Hok : cell_ok cfg (a + 1)).
  { unfold cell_ok, valid_action in *. right. lia. }
  destruct (decide (S (counter st) = n cfg * n cfg)) as [Hc|Hc].
  - destruct (step_last cfg a st HI Ha Hd Hc) as (b' & legal & Hb' & _ & Heq).
    rewrite Heq in Hstep. simplify_eq.
    pose proof (num_nonzero_set _ _ _ _ _ _ Hget Hb') as Hcount.
    rewrite Hnz in Hcount. unfold nz in Hcount. simpl in Hcount.
    constructor; simpl; try done.
    + apply (inv_side _ _ HI).
    + split; [by rewrite (grid_set_length _ _ _ _ _ Hb')
             |by eapply grid_set_rows].
    + eapply grid_set_Forall; [done|done|apply (inv_cells _ _ HI)].
    + rewrite (inv_count _ _ HI). lia.
    + apply (inv_pool _ _ HI).
    + by left.
  - destruct (step_next cfg a st HI Ha Hd Hc)
      as (b' & new_loc & p & g' & m' & Hb' & Hne & Htake & Hm' & Heq).
    rewrite Heq in Hstep. simplify_eq.
    pose proof (num_nonzero_set _ _ _ _ _ _ Hget Hb') as Hcount.
    rewrite Hnz in Hcount. unfold nz in Hcount. simpl in Hcount.
    destruct (take_location_spec cfg _ _ _ _ _ (inv_pool _ _ HI) Htake)
      as (Hin & Hnotin' & Hwf & Hsz & Hsub).
    assert (Hkeep : ∀ d, pool_elem d (free_coords st) →
      grid_get b' d.1 d.2 = Some 0%Z).
    { intros d Hd'. rewrite (grid_get_set_ne _ _ _ _ _ _ _ Hb').
      - by apply Hfree.
      - intros Heq'. apply Hnotin.
        replace (current_loc st) with d; [done|].
        destruct d, (current_loc st). simpl in *. congruence. }
    constructor; simpl; try done.
    + apply (inv_side _ _ HI).
    + split; [by rewrite (grid_set_length _ _ _ _ _ Hb')
             |by eapply grid_set_rows].
    + eapply grid_set_Forall; [done|done|apply (inv_cells _ _ HI)].
    + rewrite (inv_count _ _ HI). lia.
    + by right.
    + intros _. split_and!; [lia|by apply Hkeep|done|].
      intros d Hd'. by apply Hkeep, Hsub.
Qed.

Lemma reachable_Inv (st : env) : reachable cfg st → Inv cfg st.
Proof.
  induction 1 as [g st Hi|st st' o _ _ Hr|st a st' r _ IH Hs].
  - by eapply init_Inv.
  - by eapply reset_Inv.
  - by eapply step_Inv.
Qed.

Lemma fresh_reachable (st : env) : fresh cfg st → reachable cfg st.
Proof.
  intros [[g Hi]|(st0 & o & Hr & Hreset)].
  - by eapply reach_init.
  - by eapply reach_reset.
Qed.

Lemma fresh_start (st : env) :
  fresh cfg st → counter st = 0 ∧ done st = false.
Proof.
  intros [[g Hi]|(st0 & o & _ & Hr)].
  - unfold init in Hi.
    destruct (_first_location _ _ _) as [[[c p] g']|]; simplify_eq/=.
    destruct (grid_set _ _ _ _) as [m|]; by simplify_eq/=.
  - unfold reset in Hr.
    destruct (_first_location _ _ _) as [[[c p] g']|]; by simplify_eq/=.
Qed.

End Preservation.

(** ** Runs *)

Section Runs.

Variable cfg : config.

Lemma run_reachable (acts : list Z) (st : env)
    (l : list (env * step_result)) :
  reachable cfg st → run cfg acts st = Some l →
  Forall (λ p, reachable cfg p.1) l.
Proof.
  revert st l. induction acts as [|a acts IH]; intros st l Hr Hrun;
    simplify_eq/=; [constructor|].
  destruct (step cfg a st) as [[st1 r]|] eqn:Hstep; simplify_eq/=.
  destruct (run cfg acts st1) as [l1|] eqn:Hrun1; simplify_eq/=.
  assert (reachable cfg st1) by (by eapply reach_step).
  constructor; [done|]. by eapply IH.
Qed.

Lemma final_state_reachable (acts : list Z) (st st' : env) :
  reachable cfg st → final_state cfg acts st = Some st' →
  reachable cfg st'.
Proof.
  unfold final_state. intros Hr Hf.
  destruct (run cfg acts st) as [l|] eqn:Hrun; simplify_eq/=.
  pose proof (run_reachable acts st l Hr Hrun) as Hall.
  destruct (last (map fst l)) as [st'|] eqn:Hlast; simpl; [|done].
  apply last_Some_elem_of, list_elem_of_fmap in Hlast.
  destruct Hlast as (p & -> & Hp).
  by eapply Forall_forall in Hall.
Qed.

(** A run of valid actions that does not outlast the episode: the flag
    returned by each call tells whether that call coloured the last cell. *)
Lemma run_valid (acts : list Z) (st : env) :
  Inv cfg st → done st = false →
  Forall (valid_action cfg) acts →
  counter st + length acts ≤ n cfg * n cfg →
  ∃ l, run cfg acts st = Some l ∧
       map (λ p, terminal p.2) l
       = map (λ i, bool_decide (counter st + S i = n cfg * n cfg))
             (seq 0 (length acts)).
Proof.
  revert st. induction acts as [|a acts IH]; intros st HI Hd Hv Hlen.
  { exists []. done. }
  apply Forall_cons in Hv as [Ha Hv]. simpl in Hlen. simpl.
  destruct (decide (S (counter st) = n cfg * n cfg)) as [Hc|Hc].
  - destruct (step_last cfg a st HI Ha Hd Hc) as (b' & legal & _ & _ & ->).
    simpl. destruct acts as [|a' acts]; [|simpl in Hlen; lia].
    simpl. eexists. split; [done|]. simpl.
    rewrite bool_decide_eq_true_2 by lia. done.
  - destruct (step_next cfg a st HI Ha Hd Hc)
      as (b' & new_loc & p & g' & m' & _ & _ & _ & _ & Heq).
    pose proof (step_Inv cfg a st _ _ HI Heq) as HI'.
    rewrite Heq. simpl.
    destruct (IH _ HI') as (l & -> & Hl); [done|done|simpl; lia|].
    simpl. eexists. split; [done|]. simpl.
    rewrite bool_decide_eq_false_2 by lia. f_equal.
    rewrite Hl. simpl. rewrite <- fmap_S_seq, <- list_fmap_compose.
    apply list_fmap_ext. intros i x _. simpl.
    apply bool_decide_ext. lia.
Qed.

End Runs.

(** ** Ordered placement follows the loop order *)

Section Ordered.

Variable cfg : config.
Hypothesis Hordered : ordered_placement cfg = true.

Lemma start_ordered (c : coord) (p : pool) (g g' : rng) (m : grid) :
  _first_location cfg (_new_free_coords cfg) g = Some (c, p, g') →
  ordered_inv cfg (Env p (zeros (n cfg)) m 0 false c g').
Proof.
  unfold _first_location, _new_free_coords, ordered_inv, take_location.
  rewrite Hordered. simpl.
  destruct (all_coords (n cfg)) as [|x l]; [done|].
  by intros [= -> <- <-].
Qed.

Lemma fresh_ordered (st : env) : fresh cfg st → ordered_inv cfg st.
Proof.
  intros [[g Hi]|(st0 & o & _ & Hr)].
  - unfold init in Hi.
    destruct (_first_location _ _ _) as [[[c p] g']|] eqn:Htake;
      simplify_eq/=.
    destruct (grid_set _ _ _ _) as [m|]; simplify_eq/=.
    by eapply start_ordered.
  - unfold reset in Hr.
    destruct (_first_location _ _ _) as [[[c p] g']|] eqn:Htake;
      simplify_eq/=.
    by eapply start_ordered.
Qed.

(** One call either keeps the target or moves it to the next entry of the
    loop order. *)
Lemma step_ordered (a : Z) (st st' : env) (r : step_result) :
  Inv cfg st → ordered_inv cfg st → step cfg a st = Some (st', r) →
  ordered_inv cfg st' ∧
  (target_index cfg st' = target_index cfg st ∨
   target_index cfg st' = S (target_index cfg st)).
Proof.
  intros HI HO Hstep.
  destruct (decide (valid_action cfg a)) as [Ha|Ha];
    [|rewrite step_out_of_range in Hstep by done; simplify_eq; auto].
  destruct (done st) eqn:Hd;
    [rewrite step_after_end in Hstep by done; simplify_eq; auto|].
  unfold ordered_inv in HO. rewrite Hd in HO. destruct HO as [Hfree Hloc].
  destruct (decide (S (counter st) = n cfg * n cfg)) as [Hc|Hc].
  - destruct (step_last cfg a st HI Ha Hd Hc) as (b' & legal & _ & _ & Heq).
    rewrite Heq in Hstep. simplify_eq.
    unfold ordered_inv, target_index. simpl. rewrite Hd.
    replace (n cfg * n cfg - 1) with (counter st) by lia. auto.
  - destruct (step_next cfg a st HI Ha Hd Hc)
      as (b' & new_loc & p & g' & m' & _ & _ & Htake & _ & Heq).
    rewrite Heq in Hstep. simplify_eq.
    unfold ordered_inv, target_index. simpl. rewrite Hd.
    split; [|auto].
    rewrite Hfree, Hordered in Htake. simpl in Htake.
    destruct (drop (S (counter st)) (all_coords (n cfg)))
      as [|x l] eqn:Hdrop; simplify_eq.
    split.
    + f_equal. replace (S (S (counter st))) with (S (counter st) + 1) by lia.
      by rewrite <- drop_drop, Hdrop.
    + replace (S (counter st)) with (S (counter st) + 0) by lia.
      by rewrite <- lookup_drop, Hdrop.
Qed.

Lemma ordered_target (st : env) :
  Inv cfg st → ordered_inv cfg st →
  all_coords (n cfg) !! target_index cfg st = Some (current_loc st).
Proof.
  intros HI. unfold ordered_inv, target_index.
  destruct (done st); by intros [_ ?].
Qed.

Lemma last_state_cons (st st1 : env) (l : list env) :
  default st (last (st1 :: l)) = default st1 (last l).
Proof.
  destruct l as [|x l]; [done|]. rewrite last_cons_cons.
  destruct (last (x :: l)) eqn:Hlast; [done|]. by apply last_None in Hlast.
Qed.

(** The targets seen along a run, with repetitions collapsed, are the
    stretch of the loop order between the first and the last target. *)
Lemma run_targets (acts : list Z) (st : env)
    (l : list (env * step_result)) :
  Inv cfg st → ordered_inv cfg st → run cfg acts st = Some l →
  let final := default st (last (map fst l)) in
  target_index cfg st ≤ target_index cfg final ∧
  compress (targets_seen st l)
  = take (S (target_index cfg final) - target_index cfg st)
         (drop (target_index cfg st) (all_coords (n cfg))).
Proof.
  revert st l. induction acts as [|a acts IH]; intros st l HI HO Hrun;
    simplify_eq/=.
  { split; [done|]. unfold targets_seen. simpl.
    pose proof (ordered_target st HI HO) as Hloc.
    rewrite (drop_S _ _ _ Hloc).
    replace (S (target_index cfg st) - target_index cfg st) with 1 by lia.
    done. }
  destruct (step cfg a st) as [[st1 r]|] eqn:Hstep; simplify_eq/=.
  destruct (run cfg acts st1) as [l1|] eqn:Hrun1; simplify_eq/=.
  pose proof (step_Inv cfg a st _ _ HI Hstep) as HI1.
  destruct (step_ordered a st _ _ HI HO Hstep) as [HO1 Hidx].
  destruct (IH st1 l1 HI1 HO1 Hrun1) as [Hle Hcomp].
  rewrite last_state_cons.
  set (final := default st1 (last (map fst l1))) in *.
  pose proof (ordered_target st HI HO) as Hloc.
  pose proof (ordered_target st1 HI1 HO1) as Hloc1.
  unfold targets_seen in *. simpl in *.
  destruct Hidx as [Hsame|Hnext].
  - rewrite Hsame in *. split; [done|].
    rewrite decide_True by congruence. done.
  - rewrite Hnext in *. split; [lia|].
    rewrite decide_False; last first.
    { intros Heq. rewrite Heq in Hloc.
      pose proof (NoDup_lookup _ _ _ _ (all_coords_NoDup (n cfg)) Hloc Hloc1).
      lia. }
    rewrite Hcomp. rewrite (drop_S _ _ _ Hloc).
    replace (S (target_index cfg final) - target_index cfg st)
      with (S (S (target_index cfg final) - S (target_index cfg st)))
      by lia.
    done.
Qed.

End Ordered.

(** ** Entries of an observation *)

Lemma flatten_row_Forall (P : Z → Prop) (rb rm : list Z) :
  Forall P rb → Forall P rm →
  Forall P (concat (zip_with (λ x y : Z, [x; y]) rb rm)).
Proof.
  intros Hb. revert rm. induction Hb as [|x rb Hx _ IH]; intros rm Hm;
    [constructor|].
  destruct Hm as [|y rm Hy Hm]; simpl; [constructor|].
  repeat constructor; [done|done|]. by apply IH.
Qed.

Lemma flatten_state_Forall (P : Z → Prop) (b m : grid) :
  Forall (Forall P) b → Forall (Forall P) m →
  Forall P (flatten_state b m).
Proof.
  unfold flatten_state. intros Hb. revert m.
  induction Hb as [|rb b Hrb _ IH]; intros m Hm; [constructor|].
  destruct Hm as [|rm m Hrm Hm]; simpl; [constructor|].
  apply Forall_app. split; [by apply flatten_row_Forall|by apply IH].
Qed.

Lemma view_Forall (cfg : config) (P : Z → Prop) (st : env) :
  Forall (Forall P) (board st) → Forall (Forall P) (marker st) →
  Forall P (obs_entries (_get_state_agent_view cfg st)).
Proof.
  intros Hb Hm. unfold _get_state_agent_view.
  destruct (flatten cfg); simpl.
  - by apply flatten_state_Forall.
  - apply Forall_app. split; by apply Forall_concat.
Qed.

Lemma Inv_marker_entries (cfg : config) (st : env) :
  Inv cfg st →
  Forall (Forall (λ x : Z, x = 0%Z ∨ x = 1%Z)) (marker st).
Proof.
  intros HI. destruct (inv_marker _ _ HI) as [->|[_ Hm]].
  - apply Forall_zeros. by left.
  - eapply grid_set_Forall; [done|by right|]. apply Forall_zeros. by left.
Qed.

Lemma step_obs (cfg : config) (a : Z) (st st' : env) (r : step_result) :
  Inv cfg st → step cfg a st = Some (st', r) →
  obs r = _get_state_agent_view cfg st'.
Proof.
  intros HI Hstep.
  destruct (decide (valid_action cfg a)) as [Ha|Ha];
    [|rewrite step_out_of_range in Hstep by done; by simplify_eq].
  destruct (done st) eqn:Hd;
    [rewrite step_after_end in Hstep by done; by simplify_eq|].
  destruct (decide (S (counter st) = n cfg * n cfg)) as [Hc|Hc].
  - destruct (step_last cfg a st HI Ha Hd Hc) as (b' & legal & _ & _ & Heq).
    rewrite Heq in Hstep. by simplify_eq.
  - destruct (step_next cfg a st HI Ha Hd Hc)
      as (b' & new_loc & p & g' & m' & _ & _ & _ & _ & Heq).
    rewrite Heq in Hstep. by simplify_eq.
Qed.

Lemma Inv_entries (cfg : config) (st : env) :
  (1 ≤ num_colors cfg)%Z → Inv cfg st →
  Forall (λ x : Z, (0 ≤ x ≤ num_colors cfg)%Z)
         (obs_entries (_get_state_agent_view cfg st)).
Proof.
  intros Hnc HI. apply view_Forall.
  - eapply Forall_impl; [apply (inv_cells _ _ HI)|]. intros row Hrow.
    eapply Forall_impl; [done|]. intros x [->|Hx]; simpl; lia.
  - eapply Forall_impl; [by apply (Inv_marker_entries cfg)|].
    intros row Hrow.
    eapply Forall_impl; [done|]. intros x [->| ->]; simpl; lia.
Qed.

(** ** Concrete episodes *)

Lemma start_2x2_init : init cfg_2x2 rng0 = Some start_2x2.
Proof. reflexivity. Qed.

(** Colours 1, 2, 1, 2 in loop order: the first column repeats colour 1,
    the board is illegal and the last call is rewarded with -100. *)
Example episode_illegal_2x2 :
  (run cfg_2x2 [0; 1; 0; 1]%Z start_2x2
     ≫= λ l, last (map (λ p, (board p.1, reward p.2, terminal p.2)) l))
  = Some ([[1; 2]; [1; 2]]%Z, (-100)%Z, true).
Proof. reflexivity. Qed.

(** Colours 1, 2, 2, 1: no two neighbours agree and the last call is
    rewarded with 1. *)
Example episode_legal_2x2 :
  (run cfg_2x2 [0; 1; 1; 0]%Z start_2x2
     ≫= λ l, last (map (λ p, (board p.1, reward p.2, terminal p.2)) l))
  = Some ([[1; 2]; [2; 1]]%Z, 1%Z, true).
Proof. reflexivity. Qed.

Lemma start_2x2_fresh : fresh cfg_2x2 start_2x2.
Proof. left. exists rng0. reflexivity. Qed.

Lemma last_move_2x2_reachable : reachable cfg_2x2 last_move_2x2.
Proof.
  apply (final_state_reachable cfg_2x2 [0; 1; 1]%Z start_2x2).
  - apply (reach_init cfg_2x2 rng0). reflexivity.
  - reflexivity.
Qed.

Lemma end_2x2_reachable : reachable cfg_2x2 end_2x2.
Proof.
  apply (final_state_reachable cfg_2x2 [0; 1; 1; 0]%Z start_2x2).
  - apply (reach_init cfg_2x2 rng0). reflexivity.
  - reflexivity.
Qed.

Lemma end_3x3_reachable : reachable cfg_3x3 end_3x3.
Proof.
  destruct (init cfg_3x3 rng0) as [st0|] eqn:Hinit; [|discriminate].
  apply (final_state_reachable cfg_3x3 actions_3x3 st0).
  - by apply (reach_init cfg_3x3 rng0).
  - vm_compute in Hinit. injection Hinit as <-. reflexivity.
Qed.

(** After construction the marker layer holds exactly one non-zero entry,
    as [_check_rep] requires of a state that is not terminal. *)
Lemma init_marker_one (cfg : config) (g : rng) (st : env) :
  init cfg g = Some st → _num_nonzero (marker st) = 1.
Proof.
  unfold init. intros H.
  destruct (_first_location _ _ _) as [[[c p] g']|] eqn:Htake;
    simplify_eq/=.
  destruct (grid_set _ _ _ _) as [m|] eqn:Hm; simplify_eq/=.
  destruct (grid_set_Some _ _ _ _ _ Hm) as (row & Hrow & Hj & _).
  assert (Hget : grid_get (zeros (n cfg)) c.1 c.2 = Some 0%Z).
  { apply lookup_lt_Some in Hrow as Hi. rewrite zeros_length in Hi.
    rewrite zeros_lookup in Hrow by done. simplify_eq.
    rewrite length_replicate in Hj. by apply grid_get_zeros. }
  pose proof (num_nonzero_set _ _ _ _ _ _ Hget Hm) as Hcount.
  rewrite num_nonzero_zeros in Hcount. unfold nz in Hcount.
  simpl in Hcount. lia.
Qed.

(** * Properties of the episode state machine *)

(** C1. What [reset] does to the marker: every call to [reset] that returns
    leaves the environment active with the counter at zero, but with the
    marker layer entirely zero, so that no entry of the returned observation
    is set; the one marker entry that [__init__] writes after drawing the
    first target is not written by [reset]. *)
Theorem reset_marker_empty (cfg : config) (st st' : env) (o : observation) :
  reset cfg st = Some (st', o) →
  done st' = false ∧ counter st' = 0 ∧
  marker st' = zeros (n cfg) ∧
  _num_nonzero (marker st') = 0 ∧
  o = _get_state_agent_view cfg st' ∧
  Forall (λ x : Z, x = 0%Z) (obs_entries o).
Proof.
  unfold reset. intros H.
  destruct (_first_location _ _ _) as [[[c p] g']|] eqn:Htake;
    simplify_eq/=.
  split_and!; try done.
  - apply num_nonzero_zeros.
  - apply view_Forall; simpl; by apply Forall_zeros.
Qed.

Lemma reset_marker_empty_witness :
  reset cfg_2x2 end_2x2
  = Some (after_reset_2x2, Stacked (zeros 2) (zeros 2)) ∧
  _num_nonzero (marker after_reset_2x2) = 0 ∧
  _num_nonzero (marker start_2x2) = 1.
Proof.
  split; [reflexivity|]. split; [|reflexivity].
  apply (reset_marker_empty cfg_2x2 end_2x2 after_reset_2x2
           (Stacked (zeros 2) (zeros 2))).
  reflexivity.
Defined.

(** C2. The legality check on a full [3 x 3] board: the board built by the
    episode [actions_3x3] is completely filled and holds colour 3 in the two
    vertically adjacent cells (0,2) and (1,2) of its last column, yet
    [_check_legal_board] (with checking enabled) returns true. The main scan
    leaves out the last row and the last column, and only their corner is
    compared afterwards. *)
Theorem check_legal_board_misses_last_column :
  reachable cfg_3x3 end_3x3 ∧
  disable_checking cfg_3x3 = false ∧
  filled cfg_3x3 (board end_3x3) ∧
  adjacent 3 (0, 2) (1, 2) ∧
  grid_get (board end_3x3) 0 2 = Some 3%Z ∧
  grid_get (board end_3x3) 1 2 = Some 3%Z ∧
  _check_legal_board cfg_3x3 end_3x3 = Some true.
Proof.
  split_and!; try reflexivity.
  - apply end_3x3_reachable.
  - split; [reflexivity|]. repeat constructor; simpl; lia.
  - unfold adjacent. simpl. lia.
Qed.

(** C3, as stated, fails: in the terminal state of a [2 x 2] episode the raw
    action 2 is out of range, and [step] answers it with reward -1, not 0. *)
Lemma step_after_end_counterexample :
  reachable cfg_2x2 end_2x2 ∧ done end_2x2 = true ∧
  ∃ r, step cfg_2x2 2 end_2x2 = Some (end_2x2, r) ∧
       reward r = (-1)%Z ∧ reward r ≠ 0%Z.
Proof.
  split; [apply end_2x2_reachable|]. split; [reflexivity|].
  eexists. split; [reflexivity|]. simpl. split; [reflexivity|lia].
Qed.

(** C3, amended. For every raw action, [step] in a terminal state leaves
    the whole state unchanged and returns the current observation with
    terminal = true; the reward is 0 when the raw action lies in
    [0, num_colors - 1] and -1 otherwise, because the range check comes
    before the terminal check. *)
Theorem step_after_end_unchanged (cfg : config) (a : Z) (st : env) :
  done st = true →
  step cfg a st
  = Some (st, Result (_get_state_agent_view cfg st)
                     (if decide (0 ≤ a ≤ num_colors cfg - 1)%Z
                      then 0%Z else (-1)%Z)
                     true).
Proof.
  intros Hd. case_decide as Ha.
  - by apply step_after_end.
  - rewrite step_out_of_range by done. by rewrite Hd.
Qed.

Lemma step_after_end_unchanged_witness :
  done end_2x2 = true ∧
  step cfg_2x2 1 end_2x2
  = Some (end_2x2, Result (Stacked [[1; 2]; [2; 1]]%Z (zeros 2)) 0 true) ∧
  step cfg_2x2 (-1) end_2x2
  = Some (end_2x2, Result (Stacked [[1; 2]; [2; 1]]%Z (zeros 2)) (-1) true).
Proof.
  split; [reflexivity|]. split.
  - apply (step_after_end_unchanged cfg_2x2 1 end_2x2). reflexivity.
  - apply (step_after_end_unchanged cfg_2x2 (-1) end_2x2). reflexivity.
Defined.

(** C4. For every state (reachable or not) and every raw action outside
    [0, num_colors - 1], [step] returns reward -1 and the terminal flag as it
    was, together with the current observation, and the state it leaves is
    the state it found: counter, board, marker, current target and pool are
    all unchanged. *)
Theorem step_out_of_range_unchanged (cfg : config) (a : Z) (st : env) :
  (a < 0 ∨ num_colors cfg - 1 < a)%Z →
  step cfg a st
  = Some (st, Result (_get_state_agent_view cfg st) (-1) (done st)).
Proof.
  intros Ha. apply step_out_of_range. unfold valid_action. lia.
Qed.

Lemma step_out_of_range_unchanged_witness :
  (5 < 0 ∨ num_colors cfg_2x2 - 1 < 5)%Z ∧
  step cfg_2x2 5 last_move_2x2
  = Some (last_move_2x2,
          Result (Stacked [[1; 2]; [2; 0]]%Z [[0; 0]; [0; 1]]%Z) (-1) false).
Proof.
  assert (H : (5 < 0 ∨ num_colors cfg_2x2 - 1 < 5)%Z) by (right; simpl; lia).
  split; [exact H|].
  apply (step_out_of_range_unchanged cfg_2x2 5 last_move_2x2 H).
Defined.

(** C5. Under ordered placement, from a fresh environment (constructed or
    reset) and for every list of raw actions, valid or not, the targets
    seen along the run are, once repetitions are collapsed, an initial
    stretch of the loop order [all_coords]: its first [counter + 1] entries.
    When the run ends the episode they are the whole of it. That order is
    row-major: its entry number [i * n + j] is [(i, j)], and it has [n * n]
    entries. *)
Theorem ordered_targets_row_major (cfg : config) (acts : list Z)
    (st0 : env) (l : list (env * step_result)) :
  ordered_placement cfg = true →
  fresh cfg st0 →
  run cfg acts st0 = Some l →
  let final := default st0 (last (map fst l)) in
  compress (targets_seen st0 l)
  = take (S (counter final)) (all_coords (n cfg)) ∧
  (done final = true → compress (targets_seen st0 l) = all_coords (n cfg)) ∧
  length (all_coords (n cfg)) = n cfg * n cfg ∧
  ∀ i j, i < n cfg → j < n cfg →
         all_coords (n cfg) !! (i * n cfg + j) = Some (i, j).
Proof.
  intros Ho Hfresh Hrun final.
  pose proof (fresh_reachable cfg st0 Hfresh) as Hreach.
  pose proof (reachable_Inv cfg st0 Hreach) as HI.
  destruct (fresh_start cfg st0 Hfresh) as [Hc0 Hd0].
  destruct (run_targets cfg Ho acts st0 l HI (fresh_ordered cfg Ho st0 Hfresh)
              Hrun) as [_ Hcomp].
  fold final in Hcomp.
  assert (Hidx0 : target_index cfg st0 = 0).
  { unfold target_index. by rewrite Hd0. }
  rewrite Hidx0, Nat.sub_0_r, drop_0 in Hcomp.
  assert (HIf : Inv cfg final).
  { apply reachable_Inv. apply (final_state_reachable cfg acts st0); [done|].
    unfold final_state. by rewrite Hrun. }
  pose proof (inv_side _ _ HIf) as Hn.
  assert (Hfull : done final = true →
    compress (targets_seen st0 l) = all_coords (n cfg)).
  { intros Hd. rewrite Hcomp. unfold target_index. rewrite Hd.
    apply take_ge. rewrite all_coords_length. nia. }
  split_and!; [|done|apply all_coords_length|apply all_coords_lookup].
  destruct (done final) eqn:Hd.
  - rewrite Hfull by done. symmetry. apply take_ge.
    rewrite all_coords_length.
    destruct (inv_terminal _ _ HIf Hd) as [-> _]. lia.
  - rewrite Hcomp. unfold target_index. by rewrite Hd.
Qed.

Lemma ordered_targets_row_major_witness :
  ∃ l, run cfg_2x2 [0; 7; 1; 1; -3; 0; 0]%Z start_2x2 = Some l ∧
       compress (targets_seen start_2x2 l) = [(0, 0); (0, 1); (1, 0); (1, 1)].
Proof.
  destruct (run cfg_2x2 [0; 7; 1; 1; -3; 0; 0]%Z start_2x2) as [l|] eqn:Hrun;
    [|discriminate].
  exists l. split; [reflexivity|].
  destruct (ordered_targets_row_major cfg_2x2 [0; 7; 1; 1; -3; 0; 0]%Z
              start_2x2 l eq_refl start_2x2_fresh Hrun) as (_ & Hfull & _).
  rewrite Hfull; [reflexivity|].
  vm_compute in Hrun. injection Hrun as <-. reflexivity.
Defined.

(** C6. In every state reachable from construction or reset by any calls to
    [step], the placement counter equals the number of non-zero cells of the
    board, and lies between 0 and [n * n]. *)
Theorem counter_counts_cells (cfg : config) (st : env) :
  reachable cfg st →
  counter st = _num_nonzero (board st) ∧
  0 ≤ counter st ≤ n cfg * n cfg.
Proof.
  intros HI%reachable_Inv. split; [apply (inv_count _ _ HI)|].
  split; [lia|]. destruct (done st) eqn:Hd.
  - destruct (inv_terminal _ _ HI Hd) as [-> _]. done.
  - destruct (inv_active _ _ HI Hd) as [Hsize _]. lia.
Qed.

Lemma counter_counts_cells_witness :
  counter last_move_2x2 = _num_nonzero (board last_move_2x2) ∧
  0 ≤ counter last_move_2x2 ≤ n cfg_2x2 * n cfg_2x2.
Proof.
  apply (counter_counts_cells cfg_2x2 last_move_2x2 last_move_2x2_reachable).
Defined.

Lemma flags_of_full_run (k : nat) :
  0 < k →
  map (λ i, bool_decide (0 + S i = k)) (seq 0 k)
  = replicate (k - 1) false ++ [true].
Proof.
  intros Hk. destruct k as [|m]; [lia|].
  rewrite seq_S, map_app. simpl. rewrite Nat.sub_0_r.
  rewrite bool_decide_eq_true_2 by done. f_equal.
  assert (Hrep : ∀ len a, a + len ≤ m →
    map (λ i, bool_decide (S i = S m)) (seq a len) = replicate len false).
  { induction len as [|len IH]; intros a Ha; simpl; [done|].
    rewrite bool_decide_eq_false_2 by lia. f_equal. apply IH. lia. }
  by apply Hrep.
Qed.

(** C7. From a fresh environment, every list of [n * n] valid raw actions
    runs to the end; the terminal flag returned by [step] is false after
    each of the first [n * n - 1] calls and true at the last one. And in
    every reachable state the terminal flag is set exactly when the counter
    equals [n * n]. *)
Theorem terminal_exactly_at_last_step (cfg : config) (acts : list Z)
    (st0 st : env) :
  fresh cfg st0 →
  length acts = n cfg * n cfg →
  Forall (valid_action cfg) acts →
  reachable cfg st →
  (∃ l, run cfg acts st0 = Some l ∧
        map (λ p, terminal p.2) l
        = replicate (n cfg * n cfg - 1) false ++ [true]) ∧
  (done st = true ↔ counter st = n cfg * n cfg).
Proof.
  intros Hfresh Hlen Hvalid HI%reachable_Inv. split.
  - pose proof (reachable_Inv cfg st0 (fresh_reachable cfg st0 Hfresh)) as HI0.
    destruct (fresh_start cfg st0 Hfresh) as [Hc0 Hd0].
    destruct (run_valid cfg acts st0 HI0 Hd0 Hvalid) as (l & Hrun & Hflags);
      [lia|].
    exists l. split; [done|].
    rewrite Hflags, Hc0, Hlen. apply flags_of_full_run.
    pose proof (inv_side _ _ HI0). nia.
  - split.
    + intros Hd. by destruct (inv_terminal _ _ HI Hd).
    + intros Hc. destruct (done st) eqn:Hd; [done|].
      destruct (inv_active _ _ HI Hd) as [Hsize _]. lia.
Qed.

Lemma terminal_exactly_at_last_step_witness :
  (∃ l, run cfg_2x2 [0; 1; 1; 0]%Z start_2x2 = Some l ∧
        map (λ p, terminal p.2) l = [false; false; false; true]) ∧
  (done last_move_2x2 = true ↔ counter last_move_2x2 = 4).
Proof.
  apply (terminal_exactly_at_last_step cfg_2x2 [0; 1; 1; 0]%Z
           start_2x2 last_move_2x2 start_2x2_fresh eq_refl).
  - unfold valid_action. repeat constructor; simpl; lia.
  - apply last_move_2x2_reachable.
Defined.

(** C8. On the call whose valid action colours the last cell (the state is
    reachable and active and the counter is one short of [n * n]), [step]
    returns; the reward is 1 when [_check_legal_board] accepts the completed
    board, whatever the maximize-red setting, otherwise -100 under
    maximize-red and 0 without it; the marker is left all zero, the counter
    is [n * n], and the terminal flag is set in the state and in the
    result. *)
Theorem final_step_reward (cfg : config) (a : Z) (st : env) :
  reachable cfg st →
  valid_action cfg a →
  done st = false →
  S (counter st) = n cfg * n cfg →
  ∃ st' r legal,
    step cfg a st = Some (st', r) ∧
    _check_legal_board cfg st' = Some legal ∧
    reward r = (if legal : bool then 1
                else if maximize_red cfg then -100 else 0)%Z ∧
    marker st' = zeros (n cfg) ∧
    counter st' = n cfg * n cfg ∧
    done st' = true ∧ terminal r = true.
Proof.
  intros HI%reachable_Inv Ha Hd Hc.
  destruct (step_last cfg a st HI Ha Hd Hc) as (b' & legal & _ & Hl & Heq).
  eexists _, _, legal. split; [exact Heq|]. simpl. by rewrite <- Hc.
Qed.

Lemma final_step_reward_witness :
  ∃ st' r legal,
    step cfg_2x2 1 last_move_2x2 = Some (st', r) ∧
    _check_legal_board cfg_2x2 st' = Some legal ∧
    reward r = (if legal : bool then 1
                else if maximize_red cfg_2x2 then -100 else 0)%Z ∧
    marker st' = zeros (n cfg_2x2) ∧
    counter st' = n cfg_2x2 * n cfg_2x2 ∧
    done st' = true ∧ terminal r = true.
Proof.
  apply (final_step_reward cfg_2x2 1 last_move_2x2 last_move_2x2_reachable).
  - unfold valid_action. simpl. lia.
  - reflexivity.
  - reflexivity.
Defined.

(** C9. In every reachable state, [step] returns for every raw action: no
    assertion fails and no exception is raised. In particular, whenever
    [step] reaches [_get_next_location] (the state is active, the action
    valid, and the counter after the placement still below [n * n]), the
    pool is not empty and [_get_next_location] returns. *)
Theorem pool_never_exhausted (cfg : config) (a : Z) (st : env) :
  reachable cfg st →
  is_Some (step cfg a st) ∧
  (valid_action cfg a → done st = false →
   S (counter st) ≠ n cfg * n cfg →
   pool_size (free_coords st) ≠ 0 ∧
   ∃ b', grid_set (board st) (current_loc st).1 (current_loc st).2 (a + 1)
         = Some b' ∧
         is_Some (_get_next_location cfg
                    (Env (free_coords st) b' (marker st) (S (counter st))
                         (done st) (current_loc st) (random_state st)))).
Proof.
  intros HI%reachable_Inv. split.
  - destruct (decide (valid_action cfg a)) as [Ha|Ha];
      [|rewrite step_out_of_range by done; eauto].
    destruct (done st) eqn:Hd; [rewrite step_after_end by done; eauto|].
    destruct (decide (S (counter st) = n cfg * n cfg)) as [Hc|Hc].
    + destruct (step_last cfg a st HI Ha Hd Hc) as (? & ? & _ & _ & ->).
      eauto.
    + destruct (step_next cfg a st HI Ha Hd Hc)
        as (? & ? & ? & ? & ? & _ & _ & _ & _ & ->).
      eauto.
  - intros Ha Hd Hc.
    destruct (step_next cfg a st HI Ha Hd Hc)
      as (b' & new_loc & p & g' & m' & Hb' & Hne & Htake & Hm' & _).
    split; [done|]. exists b'. split; [done|].
    unfold _get_next_location. simpl.
    rewrite decide_False by done. rewrite Htake. simpl.
    rewrite (Inv_clear_marker cfg st HI Hd). simpl. rewrite Hm'. simpl.
    eauto.
Qed.

Lemma pool_never_exhausted_witness :
  is_Some (step cfg_2x2 0 start_2x2) ∧
  pool_size (free_coords start_2x2) ≠ 0.
Proof.
  destruct (pool_never_exhausted cfg_2x2 0 start_2x2
              (fresh_reachable cfg_2x2 start_2x2 start_2x2_fresh))
    as [Hsome Hpool].
  split; [exact Hsome|].
  apply Hpool.
  - unfold valid_action. simpl. lia.
  - reflexivity.
  - simpl. lia.
Defined.

(** C10. With at least one colour, every observation returned by [step] or
    by [reset] in a reachable state is the agent view of the resulting
    state; its board entries are 0 or a colour in [1, num_colors], its
    marker entries are 0 or 1, and every entry lies in [0, num_colors], so
    none attains the declared upper bound [num_colors + 1]. *)
Theorem observation_entries_bounded (cfg : config) (st : env) :
  (1 ≤ num_colors cfg)%Z →
  reachable cfg st →
  (∀ a st' r, step cfg a st = Some (st', r) →
              bounded_observation cfg st' (obs r)) ∧
  (∀ st' o, reset cfg st = Some (st', o) →
            bounded_observation cfg st' o).
Proof.
  intros Hnc HI%reachable_Inv.
  assert (Hb : ∀ st', Inv cfg st' →
    bounded_observation cfg st' (_get_state_agent_view cfg st')).
  { intros st' HI'. split_and!; [done|apply (inv_cells _ _ HI')
                                |by apply (Inv_marker_entries cfg)|].
    eapply Forall_impl; [by apply Inv_entries|]. simpl. lia. }
  split.
  - intros a st' r Hstep. rewrite (step_obs cfg a st st' r HI Hstep).
    apply Hb. by eapply step_Inv.
  - intros st' o Hreset. pose proof (reset_Inv cfg st st' o Hreset) as HI'.
    unfold reset in Hreset.
    destruct (_first_location _ _ _) as [[[c p] g']|]; simplify_eq/=.
    by apply Hb.
Qed.

Lemma observation_entries_bounded_witness :
  bounded_observation cfg_2x2 end_2x2 (Stacked [[1; 2]; [2; 1]]%Z (zeros 2)) ∧
  bounded_observation cfg_2x2 after_reset_2x2 (Stacked (zeros 2) (zeros 2)).
Proof.
  assert (Hnc : (1 ≤ num_colors cfg_2x2)%Z) by (simpl; lia).
  destruct (observation_entries_bounded cfg_2x2 last_move_2x2 Hnc
              last_move_2x2_reachable) as [Hstep Hreset].
  split.
  - apply (Hstep 0%Z end_2x2
             (Result (Stacked [[1; 2]; [2; 1]]%Z (zeros 2)) 1 true)).
    reflexivity.
  - apply (Hreset after_reset_2x2 (Stacked (zeros 2) (zeros 2))).
    reflexivity.
Defined.

(** * Further properties of the environment *)

(** ** Counting and full layers *)

Lemma filter_nonzero_full (row : list Z) :
  length (filter (λ y : Z, y ≠ 0%Z) row) = length row →
  Forall (λ y : Z, y ≠ 0%Z) row.
Proof.
  induction row as [|y row IH]; [constructor|].
  rewrite filter_cons. pose proof (length_filter (λ y : Z, y ≠ 0%Z) row).
  case_decide; simpl; intros Hlen; [|lia].
  constructor; [done|]. apply IH. lia.
Qed.

Lemma num_nonzero_le (k : nat) (g : grid) :
  Forall (λ row : list Z, length row = k) g →
  _num_nonzero g ≤ length g * k.
Proof.
  unfold _num_nonzero. induction 1 as [|row g Hrow _ IH]; simpl; [done|].
  pose proof (length_filter (λ y : Z, y ≠ 0%Z) row). lia.
Qed.

Lemma num_nonzero_full (k : nat) (g : grid) :
  Forall (λ row : list Z, length row = k) g →
  _num_nonzero g = length g * k →
  Forall (Forall (λ y : Z, y ≠ 0%Z)) g.
Proof.
  induction 1 as [|row g Hrow Hg IH]; [constructor|].
  pose proof (num_nonzero_le k g Hg) as Hle.
  pose proof (length_filter (λ y : Z, y ≠ 0%Z) row) as Hf.
  unfold _num_nonzero in *. simpl. intros Hsum.
  constructor.
  - apply filter_nonzero_full. lia.
  - apply IH. lia.
Qed.

(** ** More on the pool *)

Lemma take_location_rest (cfg : config) (p p' : pool) (g g' : rng)
    (c d : coord) :
  take_location (ordered_placement cfg) p g = Some (c, p', g') →
  pool_wf cfg p → pool_elem d p → d = c ∨ pool_elem d p'.
Proof.
  unfold take_location. destruct p as [l|s]; simpl.
  - intros Htake [Ho _]. rewrite Ho in Htake.
    destruct l as [|x l]; [done|]. injection Htake as -> <- <-.
    simpl. intros [->|Hd]%elem_of_cons; auto.
  - intros Htake Ho. rewrite Ho in Htake.
    destruct (choice g (elements s)) as [[e g1]|] eqn:Hc; simplify_eq/=.
    intros Hd. destruct (decide (d = c)) as [->|Hne]; [by left|right].
    rewrite elem_of_difference, elem_of_singleton. done.
Qed.

Section MoreInvariants.

Variable cfg : config.

(** The pool is empty once the episode has ended. *)
Lemma reachable_pool_empty (st : env) :
  reachable cfg st → done st = true → pool_size (free_coords st) = 0.
Proof.
  induction 1 as [g st Hi|st st' o Hreach _ Hr|st a st' r Hreach IH Hs].
  - destruct (fresh_start cfg st) as [_ Hd]; [left; eauto|]. congruence.
  - destruct (fresh_start cfg st') as [_ Hd]; [right; eauto|]. congruence.
  - pose proof (reachable_Inv cfg st Hreach) as HI.
    destruct (decide (valid_action cfg a)) as [Ha|Ha];
      [|rewrite step_out_of_range in Hs by done; by simplify_eq].
    destruct (done st) eqn:Hd;
      [rewrite step_after_end in Hs by done; simplify_eq; auto|].
    destruct (decide (S (counter st) = n cfg * n cfg)) as [Hc|Hc].
    + destruct (step_last cfg a st HI Ha Hd Hc) as (b' & legal & _ & _ & Heq).
      rewrite Heq in Hs. simplify_eq. simpl. intros _.
      destruct (inv_active _ _ HI Hd) as [Hsize _]. lia.
    + destruct (step_next cfg a st HI Ha Hd Hc)
        as (b' & new_loc & p & g' & m' & _ & _ & _ & _ & Heq).
      rewrite Heq in Hs. by simplify_eq.
Qed.

Lemma played_reachable (st : env) : played cfg st → reachable cfg st.
Proof.
  induction 1 as [g st Hi|st a st' r _ IH Hs].
  - by eapply reach_init.
  - by eapply reach_step.
Qed.

(** Without a reset, the marker of an active state is set at the target. *)
Lemma played_marker (st : env) :
  played cfg st → done st = false →
  grid_set (zeros (n cfg)) (current_loc st).1 (current_loc st).2 1%Z
  = Some (marker st).
Proof.
  induction 1 as [g st Hi|st a st' r Hp IH Hs].
  - intros _. unfold init in Hi.
    destruct (_first_location _ _ _) as [[[c p] g']|]; simplify_eq/=.
    destruct (grid_set _ _ _ _) as [m|] eqn:Hm; by simplify_eq/=.
  - pose proof (reachable_Inv cfg st (played_reachable st Hp)) as HI.
    destruct (decide (valid_action cfg a)) as [Ha|Ha];
      [|rewrite step_out_of_range in Hs by done; by simplify_eq].
    destruct (done st) eqn:Hd;
      [rewrite step_after_end in Hs by done; simplify_eq; congruence|].
    destruct (decide (S (counter st) = n cfg * n cfg)) as [Hc|Hc].
    + destruct (step_last cfg a st HI Ha Hd Hc) as (b' & legal & _ & _ & Heq).
      rewrite Heq in Hs. by simplify_eq.
    + destruct (step_next cfg a st HI Ha Hd Hc)
        as (b' & new_loc & p & g' & m' & _ & _ & _ & Hm' & Heq).
      rewrite Heq in Hs. by simplify_eq.
Qed.

Lemma marker_set_count (c : coord) (m : grid) :
  grid_set (zeros (n cfg)) c.1 c.2 1%Z = Some m → _num_nonzero m = 1.
Proof.
  intros Hm. destruct (grid_set_Some _ _ _ _ _ Hm) as (row & Hrow & Hj & _).
  assert (Hget : grid_get (zeros (n cfg)) c.1 c.2 = Some 0%Z).
  { apply lookup_lt_Some in Hrow as Hi. rewrite zeros_length in Hi.
    rewrite zeros_lookup in Hrow by done. simplify_eq.
    rewrite length_replicate in Hj. by apply grid_get_zeros. }
  pose proof (num_nonzero_set _ _ _ _ _ _ Hget Hm) as Hcount.
  rewrite num_nonzero_zeros in Hcount. unfold nz in Hcount.
  simpl in Hcount. lia.
Qed.

(** Every empty cell of an active state is the target or waits in the
    pool. *)
Lemma reachable_empty_cells (st : env) :
  reachable cfg st → done st = false →
  ∀ c, grid_get (board st) c.1 c.2 = Some 0%Z →
       c = current_loc st ∨ pool_elem c (free_coords st).
Proof.
  assert (Hstart : ∀ c p g g', 
    _first_location cfg (_new_free_coords cfg) g = Some (c, p, g') →
    ∀ d, grid_get (zeros (n cfg)) d.1 d.2 = Some 0%Z →
         d = c ∨ pool_elem d p).
  { intros c p g g' Htake d Hd.
    eapply (take_location_rest cfg); [exact Htake|apply new_free_coords_wf|].
    apply new_free_coords_elem.
    eapply grid_get_lt; [apply zeros_length|apply zeros_rows|done]. }
  induction 1 as [g st Hi|st st' o _ _ Hr|st a st' r Hreach IH Hs]; intros Hd'.
  - unfold init in Hi.
    destruct (_first_location _ _ _) as [[[c p] g']|] eqn:Htake;
      simplify_eq/=.
    destruct (grid_set _ _ _ _) as [m|]; simplify_eq/=. by eapply Hstart.
  - unfold reset in Hr.
    destruct (_first_location _ _ _) as [[[c p] g']|] eqn:Htake;
      simplify_eq/=. by eapply Hstart.
  - pose proof (reachable_Inv cfg st Hreach) as HI.
    destruct (decide (valid_action cfg a)) as [Ha|Ha];
      [|rewrite step_out_of_range in Hs by done; simplify_eq; auto].
    destruct (done st) eqn:Hd;
      [rewrite step_after_end in Hs by done; simplify_eq; congruence|].
    destruct (decide (S (counter st) = n cfg * n cfg)) as [Hc|Hc].
    + destruct (step_last cfg a st HI Ha Hd Hc) as (b' & legal & _ & _ & Heq).
      rewrite Heq in Hs. by simplify_eq.
    + destruct (step_next cfg a st HI Ha Hd Hc)
        as (b' & new_loc & p & g' & m' & Hb' & _ & Htake & _ & Heq).
      rewrite Heq in Hs. simplify_eq. simpl. intros c Hc0.
      destruct (decide (c = current_loc st)) as [->|Hne].
      { rewrite (grid_get_set_eq _ _ _ _ _ Hb') in Hc0.
        unfold valid_action in Ha. simplify_eq. lia. }
      rewrite (grid_get_set_ne _ _ _ _ _ _ _ Hb') in Hc0; last first.
      { intros Heq'. apply Hne. destruct c, (current_loc st).
        simpl in *. congruence. }
      destruct (IH eq_refl c Hc0) as [->|Hin]; [done|].
      eapply (take_location_rest cfg); [exact Htake|apply (inv_pool _ _ HI)|].
      done.
Qed.

End MoreInvariants.

(** ** The representation check *)

Lemma reachable_marker_or_start (cfg : config) (st : env) :
  reachable cfg st → done st = false →
  grid_set (zeros (n cfg)) (current_loc st).1 (current_loc st).2 1%Z
  = Some (marker st) ∨
  (marker st = zeros (n cfg) ∧ counter st = 0).
Proof.
  induction 1 as [g st Hi|st st' o _ _ Hr|st a st' r Hreach IH Hs].
  - intros Hd. left. apply played_marker; [|done]. by eapply played_init.
  - intros _. right. unfold reset in Hr.
    destruct (_first_location _ _ _) as [[[c p] g']|]; by simplify_eq/=.
  - pose proof (reachable_Inv cfg st Hreach) as HI.
    destruct (decide (valid_action cfg a)) as [Ha|Ha];
      [|rewrite step_out_of_range in Hs by done; by simplify_eq].
    destruct (done st) eqn:Hd;
      [rewrite step_after_end in Hs by done; simplify_eq; congruence|].
    destruct (decide (S (counter st) = n cfg * n cfg)) as [Hc|Hc].
    + destruct (step_last cfg a st HI Ha Hd Hc) as (b' & legal & _ & _ & Heq).
      rewrite Heq in Hs. by simplify_eq.
    + destruct (step_next cfg a st HI Ha Hd Hc)
        as (b' & new_loc & p & g' & m' & _ & _ & _ & Hm' & Heq).
      rewrite Heq in Hs. simplify_eq. by left.
Qed.

Lemma check_rep_marker (cfg : config) (st : env) :
  reachable cfg st →
  done st = true ∨ _num_nonzero (marker st) = 1 →
  _check_rep cfg st = Passed.
Proof.
  intros Hreach Hm. pose proof (reachable_Inv cfg st Hreach) as HI.
  unfold _check_rep. rewrite decide_True by apply (inv_side _ _ HI).
  destruct (done st) eqn:Hd.
  - destruct (inv_terminal _ _ HI Hd) as [Hc _].
    rewrite decide_True by (by apply (reachable_pool_empty cfg)).
    rewrite decide_True by (by rewrite <- (inv_count _ _ HI)).
    by rewrite decide_True.
  - destruct Hm as [?|Hm]; [done|].
    destruct (inv_active _ _ HI Hd) as [Hsize _].
    rewrite <- (inv_count _ _ HI).
    rewrite decide_True by lia. rewrite decide_True by done.
    by rewrite decide_True.
Qed.

(** X1. As long as [reset] has not been called, every assertion of
    [_check_rep] holds: in the state left by [__init__] and after every
    call to [step]. *)
Theorem check_rep_passes_without_reset (cfg : config) (st : env) :
  played cfg st → _check_rep cfg st = Passed.
Proof.
  intros Hp. apply check_rep_marker; [by apply played_reachable|].
  destruct (done st) eqn:Hd; [by left|right].
  eapply marker_set_count. by apply played_marker.
Qed.

Lemma check_rep_passes_without_reset_witness :
  _check_rep cfg_2x2 start_2x2 = Passed.
Proof.
  apply (check_rep_passes_without_reset cfg_2x2 start_2x2).
  apply (played_init cfg_2x2 rng0). reflexivity.
Defined.

(** X2. Right after every [reset] that returns, [_check_rep] fails, and the
    assertion that fails is the one on the marker ("there none or too many
    current placement locations specified"); the assertions before it
    hold. *)
Theorem check_rep_fails_after_reset (cfg : config) (st st' : env)
    (o : observation) :
  reset cfg st = Some (st', o) → _check_rep cfg st' = Failed MarkerCount.
Proof.
  intros Hr. pose proof (reset_Inv cfg st st' o Hr) as HI.
  pose proof (inv_side _ _ HI) as Hn. unfold reset in Hr.
  destruct (_first_location _ _ _) as [[[c p] g']|]; simplify_eq/=.
  unfold _check_rep. simpl. rewrite decide_True by done.
  rewrite !num_nonzero_zeros.
  rewrite decide_True by nia. rewrite decide_True by done.
  by rewrite decide_False.
Qed.

Lemma check_rep_fails_after_reset_witness :
  reset cfg_2x2 end_2x2
  = Some (after_reset_2x2, Stacked (zeros 2) (zeros 2)) ∧
  _check_rep cfg_2x2 after_reset_2x2 = Failed MarkerCount.
Proof.
  split; [reflexivity|].
  apply (check_rep_fails_after_reset cfg_2x2 end_2x2 after_reset_2x2
           (Stacked (zeros 2) (zeros 2))).
  reflexivity.
Defined.

(** X3. In every reachable state in which at least one cell has been
    coloured, [_check_rep] passes: the first accepted action after a reset
    restores the marker. *)
Theorem check_rep_passes_once_coloured (cfg : config) (st : env) :
  reachable cfg st → counter st ≠ 0 → _check_rep cfg st = Passed.
Proof.
  intros Hreach Hc. apply check_rep_marker; [done|].
  destruct (done st) eqn:Hd; [by left|right].
  destruct (reachable_marker_or_start cfg st Hreach Hd) as [Hm|[_ ?]];
    [|done].
  by eapply marker_set_count.
Qed.

Lemma check_rep_passes_once_coloured_witness :
  ∃ st r, step cfg_2x2 1 after_reset_2x2 = Some (st, r) ∧
          _check_rep cfg_2x2 st = Passed.
Proof.
  destruct (step cfg_2x2 1 after_reset_2x2) as [[st r]|] eqn:Hs;
    [|discriminate].
  exists st, r. split; [reflexivity|].
  apply (check_rep_passes_once_coloured cfg_2x2 st).
  - apply (reach_step cfg_2x2 after_reset_2x2 1 st r); [|exact Hs].
    apply (reach_reset cfg_2x2 end_2x2 after_reset_2x2
             (Stacked (zeros 2) (zeros 2)) end_2x2_reachable).
    reflexivity.
  - vm_compute in Hs. injection Hs as <- _. simpl. lia.
Defined.

(** ** What the legality check compares *)

Lemma clash_at_value (b : grid) (c : coord) (x y z : Z) :
  grid_get b c.1 c.2 = Some x →
  grid_get b (S c.1) c.2 = Some y →
  grid_get b c.1 (S c.2) = Some z →
  clash_at b c = Some (bool_decide (x = y ∨ x = z)).
Proof.
  intros Hx Hy Hz. unfold clash_at. rewrite !Nat.add_1_r, Hx, Hy. simpl.
  case_decide as Hxy.
  - by rewrite bool_decide_eq_true_2 by (by left).
  - rewrite Hz. simpl. f_equal. apply bool_decide_ext. tauto.
Qed.

Lemma clash_at_inv (b : grid) (c : coord) (found : bool) :
  clash_at b c = Some found →
  ∃ x y, grid_get b c.1 c.2 = Some x ∧ grid_get b (S c.1) c.2 = Some y ∧
         if found then x = y ∨ grid_get b c.1 (S c.2) = Some x
         else x ≠ y ∧ ∃ z, grid_get b c.1 (S c.2) = Some z ∧ x ≠ z.
Proof.
  unfold clash_at. rewrite !Nat.add_1_r. intros H.
  destruct (grid_get b c.1 c.2) as [x|]; simplify_eq/=.
  destruct (grid_get b (S c.1) c.2) as [y|]; simplify_eq/=.
  exists x, y. split; [done|]. split; [done|].
  case_decide as Hxy; simplify_eq/=; [by left|].
  destruct (grid_get b c.1 (S c.2)) as [z|]; simplify_eq/=.
  case_bool_decide as Hxz; [right; by subst|]. eauto.
Qed.

Lemma scan_inv (b : grid) (cells : list coord) (found : bool) :
  scan b cells = Some found →
  if found then ∃ c, c ∈ cells ∧ clash_at b c = Some true
  else ∀ c, c ∈ cells → clash_at b c = Some false.
Proof.
  induction cells as [|c cells IH]; simpl.
  - intros [= <-]. intros c Hc. by apply not_elem_of_nil in Hc.
  - destruct (clash_at b c) as [[]|] eqn:Hc; simpl; [| |done].
    + intros [= <-]. exists c. split; [apply list_elem_of_here|done].
    + intros Hs. specialize (IH Hs). destruct found.
      * destruct IH as (d & Hd & Hcl). exists d.
        split; [by apply list_elem_of_further|done].
      * intros d [->|Hd]%elem_of_cons; [done|by apply IH].
Qed.

Lemma corner_reads (k : nat) (b : grid) :
  2 ≤ k → length b = k → Forall (λ row : list Z, length row = k) b →
  np_get b (Z.of_nat k - 1) (Z.of_nat k - 1) = grid_get b (k - 1) (k - 1) ∧
  np_get b (Z.of_nat k - 2) (Z.of_nat k - 1) = grid_get b (k - 2) (k - 1) ∧
  np_get b (Z.of_nat k - 1) (Z.of_nat k - 2) = grid_get b (k - 1) (k - 2).
Proof.
  intros Hk Hlen Hrows.
  replace (Z.of_nat k - 1)%Z with (Z.of_nat (k - 1)) by lia.
  replace (Z.of_nat k - 2)%Z with (Z.of_nat (k - 2)) by lia.
  split_and!; apply (np_get_nonneg k); (done || lia).
Qed.

(** On a square board of side at least 2 the check returns, and it
    rejects the board exactly when one of its comparisons finds two equal
    entries. *)
Lemma check_legal_board_spec (cfg : config) (st : env) :
  disable_checking cfg = false → 2 ≤ n cfg → is_square cfg (board st) →
  ∃ legal, _check_legal_board cfg st = Some legal ∧
           (legal = false ↔ checked_clash (n cfg) (board st)).
Proof.
  intros Hdc Hn [Hlen Hrows].
  destruct (corner_reads (n cfg) (board st) Hn Hlen Hrows)
    as (Hbr & Hup & Hleft).
  unfold _check_legal_board. rewrite Hdc. simpl.
  destruct (scan_is_Some (n cfg) (board st) (all_coords (n cfg - 1)))
    as [found Hscan]; [done|done|apply scan_cells_in_range|].
  rewrite Hscan. simpl. apply scan_inv in Hscan.
  destruct found.
  { exists false. split; [done|]. split; [intros _|done]. left.
    destruct Hscan as (c & Hc%elem_of_all_coords & Hcl).
    apply clash_at_inv in Hcl as (x & y & Hx & Hy & Hxy).
    exists c.1, c.2, x. split_and!; [lia|lia|done|].
    destruct Hxy as [->|Hz]; auto. }
  rewrite Hbr, Hup, Hleft.
  destruct (grid_get_is_Some (n cfg) (board st) (n cfg - 1) (n cfg - 1))
    as [x Hx]; [done|done|lia|lia|].
  destruct (grid_get_is_Some (n cfg) (board st) (n cfg - 2) (n cfg - 1))
    as [y Hy]; [done|done|lia|lia|].
  destruct (grid_get_is_Some (n cfg) (board st) (n cfg - 1) (n cfg - 2))
    as [z Hz]; [done|done|lia|lia|].
  rewrite Hx, Hy, Hz. simpl.
  case_decide as Hxy.
  { exists false. split; [done|]. split; [intros _|done]. right.
    exists x. split; [done|]. left. by subst. }
  case_decide as Hxz.
  { exists false. split; [done|]. split; [intros _|done]. right.
    exists x. split; [done|]. right. by subst. }
  exists true. split; [done|]. split; [done|]. intros [Hin|Hcorner].
  - destruct Hin as (i & j & v & Hi & Hj & Hv & Heq).
    assert (Hc : (i, j) ∈ all_coords (n cfg - 1)).
    { apply elem_of_all_coords. simpl. lia. }
    apply Hscan, clash_at_inv in Hc as (x' & y' & Hx' & Hy' & Hne & z' & Hz' & Hnz).
    simpl in *. destruct Heq as [Heq|Heq]; congruence.
  - destruct Hcorner as (v & Hv & [Heq|Heq]); congruence.
Qed.

Lemma checked_clash_adjacent (k : nat) (b : grid) :
  2 ≤ k → checked_clash k b → adjacent_clash k b.
Proof.
  intros Hk [(i & j & x & Hi & Hj & Hx & [Hy|Hz])|(x & Hx & [Hy|Hz])].
  - exists (i, j), (S i, j), x. unfold adjacent. simpl.
    split_and!; auto; lia.
  - exists (i, j), (i, S j), x. unfold adjacent. simpl.
    split_and!; auto; lia.
  - exists (k - 2, k - 1), (k - 1, k - 1), x. unfold adjacent. simpl.
    split_and!; auto; lia.
  - exists (k - 1, k - 2), (k - 1, k - 1), x. unfold adjacent. simpl.
    split_and!; auto; lia.
Qed.

Lemma adjacent_clash_checked_2x2 (b : grid) :
  adjacent_clash 2 b → checked_clash 2 b.
Proof.
  intros ([i j] & [i' j'] & x & Hadj & Hc & Hd). unfold adjacent in Hadj.
  simpl in *. destruct Hadj as (Hi & Hj & Hi' & Hj' & Hstep).
  assert (Hcases : (i = 0 ∧ j = 0 ∧ (i' = 1 ∧ j' = 0 ∨ i' = 0 ∧ j' = 1)) ∨
                   (i' = 1 ∧ j' = 1 ∧ (i = 0 ∧ j = 1 ∨ i = 1 ∧ j = 0)))
    by lia.
  destruct Hcases as [(-> & -> & Hd')|(-> & -> & Hc')].
  - left. exists 0, 0, x. split_and!; [lia|lia|done|].
    destruct Hd' as [[-> ->]|[-> ->]]; auto.
  - right. exists x. simpl. split; [done|].
    destruct Hc' as [[-> ->]|[-> ->]]; auto.
Qed.

Lemma check_legal_board_single (cfg : config) (st : env) :
  disable_checking cfg = false → n cfg = 1 → is_square cfg (board st) →
  _check_legal_board cfg st = Some false.
Proof.
  intros Hdc Hn [Hlen Hrows]. rewrite Hn in Hlen, Hrows.
  unfold _check_legal_board. rewrite Hdc, Hn. simpl.
  destruct (board st) as [|row [|row' g]]; simplify_eq/=.
  apply Forall_cons in Hrows as [Hrow _].
  destruct row as [|x [|x' row]]; simplify_eq/=.
  unfold np_get, np_index. simpl.
  by rewrite decide_True.
Qed.

Lemma illegal_end_2x2_reachable : reachable cfg_2x2 illegal_end_2x2.
Proof.
  apply (final_state_reachable cfg_2x2 [0; 1; 0; 1]%Z start_2x2).
  - apply (reach_init cfg_2x2 rng0). reflexivity.
  - reflexivity.
Qed.

Lemma last_move_unchecked_reachable :
  reachable cfg_unchecked last_move_unchecked.
Proof.
  destruct (init cfg_unchecked rng0) as [st0|] eqn:Hinit; [|discriminate].
  apply (final_state_reachable cfg_unchecked [0; 0; 0]%Z st0).
  - by apply (reach_init cfg_unchecked rng0).
  - vm_compute in Hinit. injection Hinit as <-. reflexivity.
Qed.

Lemma square_2x2 (st : env) (a b c d : Z) :
  board st = [[a; b]; [c; d]] → is_square cfg_2x2 (board st).
Proof. intros ->. split; [done|]. by repeat constructor. Qed.

(** X4. With checking enabled, on every square board of side at least 2,
    [_check_legal_board] returns, and it returns false exactly when one of
    the comparisons it makes finds two equal entries: a cell outside the
    last row and last column against the cell below it or to its right, or
    the bottom-right corner against the cell above it or to its left. *)
Theorem check_legal_board_comparisons (cfg : config) (st : env) :
  disable_checking cfg = false → 2 ≤ n cfg → is_square cfg (board st) →
  (_check_legal_board cfg st = Some false
   ↔ checked_clash (n cfg) (board st)) ∧
  (_check_legal_board cfg st = Some true
   ↔ ¬ checked_clash (n cfg) (board st)).
Proof.
  intros Hdc Hn Hsq.
  destruct (check_legal_board_spec cfg st Hdc Hn Hsq) as (legal & Hl & Hiff).
  rewrite Hl, <- Hiff. destruct legal; split; split; congruence.
Qed.

Lemma check_legal_board_comparisons_witness :
  (_check_legal_board cfg_3x3 end_3x3 = Some false
   ↔ checked_clash 3 board_3x3) ∧
  (_check_legal_board cfg_3x3 end_3x3 = Some true
   ↔ ¬ checked_clash 3 board_3x3).
Proof.
  apply (check_legal_board_comparisons cfg_3x3 end_3x3).
  - reflexivity.
  - simpl. lia.
  - split; [reflexivity|]. by repeat constructor.
Defined.

(** X5. A rejection is always justified: with checking enabled, on a
    square board of side at least 2, if [_check_legal_board] returns false
    then two cells that share an edge hold the same entry. *)
Theorem check_legal_board_sound (cfg : config) (st : env) :
  disable_checking cfg = false → 2 ≤ n cfg → is_square cfg (board st) →
  _check_legal_board cfg st = Some false →
  adjacent_clash (n cfg) (board st).
Proof.
  intros Hdc Hn Hsq Hcheck.
  destruct (check_legal_board_spec cfg st Hdc Hn Hsq) as (legal & Hl & Hiff).
  rewrite Hcheck in Hl. injection Hl as <-.
  apply checked_clash_adjacent; [done|]. by apply Hiff.
Qed.

Lemma check_legal_board_sound_witness :
  adjacent_clash 2 (board illegal_end_2x2).
Proof.
  apply (check_legal_board_sound cfg_2x2 illegal_end_2x2).
  - reflexivity.
  - simpl. lia.
  - by eapply square_2x2.
  - reflexivity.
Defined.

(** X6. On a [2 x 2] board the check is exact: with checking enabled it
    returns false if and only if two cells that share an edge hold the same
    entry, and true otherwise. *)
Theorem check_legal_board_exact_2x2 (cfg : config) (st : env) :
  n cfg = 2 → disable_checking cfg = false → is_square cfg (board st) →
  (_check_legal_board cfg st = Some false ↔ adjacent_clash 2 (board st)) ∧
  (_check_legal_board cfg st = Some true ↔ ¬ adjacent_clash 2 (board st)).
Proof.
  intros Hn Hdc Hsq.
  destruct (check_legal_board_spec cfg st Hdc) as (legal & Hl & Hiff);
    [lia|done|].
  rewrite Hn in Hiff. rewrite Hl.
  assert (Hadj : legal = false ↔ adjacent_clash 2 (board st)).
  { rewrite Hiff. split.
    - by apply checked_clash_adjacent.
    - apply adjacent_clash_checked_2x2. }
  split.
  - rewrite <- Hadj. split; congruence.
  - rewrite <- Hadj. destruct legal; split; congruence.
Qed.

Lemma check_legal_board_exact_2x2_witness :
  (_check_legal_board cfg_2x2 end_2x2 = Some false
   ↔ adjacent_clash 2 (board end_2x2)) ∧
  (_check_legal_board cfg_2x2 end_2x2 = Some true
   ↔ ¬ adjacent_clash 2 (board end_2x2)).
Proof.
  apply (check_legal_board_exact_2x2 cfg_2x2 end_2x2).
  - reflexivity.
  - reflexivity.
  - by eapply square_2x2.
Defined.

(** X7. A board of a single cell is always rejected when checking is
    enabled, because the corner is compared with itself (index [n - 2] is
    -1 and wraps around). So the one accepted action of a [1 x 1] episode
    ends it with reward -100 under maximize-red and 0 without it, never
    1. *)
Theorem single_cell_episode_reward (cfg : config) (a : Z) (st : env) :
  n cfg = 1 → disable_checking cfg = false →
  reachable cfg st → done st = false → valid_action cfg a →
  ∃ st' r, step cfg a st = Some (st', r) ∧
           _check_legal_board cfg st' = Some false ∧
           terminal r = true ∧
           reward r = (if maximize_red cfg then -100 else 0)%Z.
Proof.
  intros Hn Hdc HI%reachable_Inv Hd Ha.
  destruct (inv_active _ _ HI Hd) as [Hsize _]. rewrite Hn in Hsize.
  assert (Hc : S (counter st) = n cfg * n cfg) by (rewrite Hn; lia).
  destruct (step_last cfg a st HI Ha Hd Hc) as (b' & legal & Hb' & Hl & Heq).
  pose proof (step_Inv cfg a st _ _ HI Heq) as HI'.
  rewrite (check_legal_board_single cfg _ Hdc Hn (inv_board _ _ HI')) in Hl.
  injection Hl as <-. eexists _, _. split; [exact Heq|]. simpl.
  split; [|done].
  apply check_legal_board_single; [done|done|apply (inv_board _ _ HI')].
Qed.

Lemma single_cell_episode_reward_witness :
  ∃ st' r, step cfg_1x1 2 start_1x1 = Some (st', r) ∧
           _check_legal_board cfg_1x1 st' = Some false ∧
           terminal r = true ∧ reward r = (-100)%Z.
Proof.
  apply (single_cell_episode_reward cfg_1x1 2 start_1x1).
  - reflexivity.
  - reflexivity.
  - apply (reach_init cfg_1x1 rng0). reflexivity.
  - reflexivity.
  - unfold valid_action. simpl. lia.
Defined.

(** X8. With checking disabled the call that colours the last cell is
    always rewarded with 1, whatever the board and the maximize-red
    setting. *)
Theorem unchecked_final_reward (cfg : config) (a : Z) (st : env) :
  disable_checking cfg = true →
  reachable cfg st → valid_action cfg a → done st = false →
  S (counter st) = n cfg * n cfg →
  ∃ st' r, step cfg a st = Some (st', r) ∧
           reward r = 1%Z ∧ terminal r = true.
Proof.
  intros Hdc HI%reachable_Inv Ha Hd Hc.
  destruct (step_last cfg a st HI Ha Hd Hc) as (b' & legal & _ & Hl & Heq).
  unfold _check_legal_board in Hl. rewrite Hdc in Hl. injection Hl as <-.
  eexists _, _. split; [exact Heq|]. done.
Qed.

Lemma unchecked_final_reward_witness :
  ∃ st' r, step cfg_unchecked 0 last_move_unchecked = Some (st', r) ∧
           reward r = 1%Z ∧ terminal r = true.
Proof.
  apply (unchecked_final_reward cfg_unchecked 0 last_move_unchecked).
  - reflexivity.
  - apply last_move_unchecked_reachable.
  - unfold valid_action. simpl. lia.
  - reflexivity.
  - reflexivity.
Defined.

(** ** What a call to step returns and changes *)

(** X9. The rewards [step] hands out in reachable states are -100, -1, 0
    and 1 only. The reward is -1 exactly when the raw action is out of
    range, and -100 only on a terminal result under maximize-red. *)
Theorem step_reward_values (cfg : config) (a : Z) (st st' : env)
    (r : step_result) :
  reachable cfg st → step cfg a st = Some (st', r) →
  reward r ∈ [-100; -1; 0; 1]%Z ∧
  (reward r = (-1)%Z ↔ ¬ valid_action cfg a) ∧
  (reward r = (-100)%Z → maximize_red cfg = true ∧ terminal r = true).
Proof.
  intros HI%reachable_Inv Hs.
  destruct (decide (valid_action cfg a)) as [Ha|Ha].
  2: { rewrite step_out_of_range in Hs by done. simplify_eq. simpl.
       split_and!; [set_solver|done|done]. }
  destruct (done st) eqn:Hd.
  { rewrite step_after_end in Hs by done. simplify_eq. simpl.
    split_and!; [set_solver|split; [done|tauto]|done]. }
  destruct (decide (S (counter st) = n cfg * n cfg)) as [Hc|Hc].
  - destruct (step_last cfg a st HI Ha Hd Hc) as (b' & legal & _ & _ & Heq).
    rewrite Heq in Hs. simplify_eq. simpl.
    destruct legal, (maximize_red cfg);
      (split_and!; [set_solver|split; [done|tauto]|done]).
  - destruct (step_next cfg a st HI Ha Hd Hc)
      as (b' & new_loc & p & g' & m' & _ & _ & _ & _ & Heq).
    rewrite Heq in Hs. simplify_eq. simpl.
    destruct (maximize_red cfg && bool_decide (a + 1 = 1)%Z);
      (split_and!; [set_solver|split; [done|tauto]|done]).
Qed.

Lemma step_reward_values_witness :
  ∃ st' r, step cfg_2x2 1 last_move_2x2 = Some (st', r) ∧
           reward r = (-100)%Z ∧
           reward r ∈ [-100; -1; 0; 1]%Z ∧ terminal r = true.
Proof.
  destruct (step cfg_2x2 1 last_move_2x2) as [[st' r]|] eqn:Hs;
    [|discriminate].
  exists st', r. split; [reflexivity|].
  destruct (step_reward_values cfg_2x2 1 last_move_2x2 st' r
              last_move_2x2_reachable Hs) as (Hin & _ & Hmax).
  assert (Hr : reward r = (-100)%Z).
  { vm_compute in Hs. injection Hs as _ <-. reflexivity. }
  split; [exact Hr|]. split; [exact Hin|]. apply (Hmax Hr).
Defined.

(** X10. An accepted action that does not end the episode colours the
    current target with the action's colour, raises the counter by one,
    takes one coordinate out of the pool and makes it the new target: a
    different cell, still empty, carrying the only entry of the marker
    layer. The result is not terminal and the reward is 1 exactly under
    maximize-red for raw action 0, and 0 otherwise. *)
Theorem step_colours_target (cfg : config) (a : Z) (st : env) :
  reachable cfg st → valid_action cfg a → done st = false →
  S (counter st) ≠ n cfg * n cfg →
  ∃ st' r,
    step cfg a st = Some (st', r) ∧
    terminal r = false ∧ done st' = false ∧
    reward r = (if maximize_red cfg && bool_decide (a = 0%Z)
                then 1 else 0)%Z ∧
    counter st' = S (counter st) ∧
    grid_get (board st') (current_loc st).1 (current_loc st).2
      = Some (a + 1)%Z ∧
    current_loc st' ≠ current_loc st ∧
    pool_elem (current_loc st') (free_coords st) ∧
    pool_size (free_coords st) = S (pool_size (free_coords st')) ∧
    grid_get (board st') (current_loc st').1 (current_loc st').2
      = Some 0%Z ∧
    grid_get (marker st') (current_loc st').1 (current_loc st').2
      = Some 1%Z ∧
    _num_nonzero (marker st') = 1.
Proof.
  intros HI%reachable_Inv Ha Hd Hc.
  destruct (step_next cfg a st HI Ha Hd Hc)
    as (b' & new_loc & p & g' & m' & Hb' & _ & Htake & Hm' & Heq).
  pose proof (step_Inv cfg a st _ _ HI Heq) as HI'.
  destruct (take_location_spec cfg _ _ _ _ _ (inv_pool _ _ HI) Htake)
    as (Hin & _ & _ & Hsz & _).
  destruct (inv_active _ _ HI Hd) as (_ & _ & Hnotin & _).
  destruct (inv_active _ _ HI' eq_refl) as (_ & Hempty & _).
  eexists _, _. split; [exact Heq|]. simpl in *.
  split_and!; try done.
  - rewrite (bool_decide_ext (a + 1 = 1)%Z (a = 0)%Z) by lia. done.
  - by eapply grid_get_set_eq.
  - intros ->. done.
  - by eapply grid_get_set_eq.
  - by eapply (marker_set_count cfg).
Qed.

Lemma step_colours_target_witness :
  ∃ st' r,
    step cfg_2x2 0 start_2x2 = Some (st', r) ∧
    reward r = 1%Z ∧ current_loc st' = (0, 1) ∧
    grid_get (board st') 0 0 = Some 1%Z ∧
    _num_nonzero (marker st') = 1.
Proof.
  destruct (step_colours_target cfg_2x2 0 start_2x2) as (st' & r & Hs & H).
  - apply (reach_init cfg_2x2 rng0). reflexivity.
  - unfold valid_action. simpl. lia.
  - reflexivity.
  - simpl. lia.
  - exists st', r. split; [exact Hs|].
    destruct H as (_ & _ & Hr & _ & Hb & _ & _ & _ & _ & _ & Hm).
    split; [exact Hr|]. split; [|split; [exact Hb|exact Hm]].
    vm_compute in Hs. injection Hs as <- _. reflexivity.
Defined.

(** X11. No call to [step] changes a cell other than the current target,
    and none changes a cell that is already coloured: the board only
    grows. *)
Theorem step_keeps_cells (cfg : config) (a : Z) (st st' : env)
    (r : step_result) :
  reachable cfg st → step cfg a st = Some (st', r) →
  (∀ i j, (i, j) ≠ current_loc st →
          grid_get (board st') i j = grid_get (board st) i j) ∧
  (∀ i j x, grid_get (board st) i j = Some x → x ≠ 0%Z →
            grid_get (board st') i j = Some x).
Proof.
  intros HI%reachable_Inv Hs.
  assert (Hother : ∀ i j, (i, j) ≠ current_loc st →
    grid_get (board st') i j = grid_get (board st) i j).
  { intros i j Hne.
    destruct (decide (valid_action cfg a)) as [Ha|Ha];
      [|rewrite step_out_of_range in Hs by done; by simplify_eq].
    destruct (done st) eqn:Hd;
      [rewrite step_after_end in Hs by done; by simplify_eq|].
    assert (Hne' : ((current_loc st).1, (current_loc st).2) ≠ (i, j)).
    { intros Heq. apply Hne. destruct (current_loc st). by simplify_eq/=. }
    destruct (decide (S (counter st) = n cfg * n cfg)) as [Hc|Hc].
    - destruct (step_last cfg a st HI Ha Hd Hc)
        as (b' & legal & Hb' & _ & Heq).
      rewrite Heq in Hs. simplify_eq. simpl.
      by eapply grid_get_set_ne.
    - destruct (step_next cfg a st HI Ha Hd Hc)
        as (b' & new_loc & p & g' & m' & Hb' & _ & _ & _ & Heq).
      rewrite Heq in Hs. simplify_eq. simpl.
      by eapply grid_get_set_ne. }
  split; [done|]. intros i j x Hx Hnz.
  destruct (decide ((i, j) = current_loc st)) as [Heq|Hne];
    [|by rewrite Hother].
  destruct (done st) eqn:Hd.
  - destruct (decide (valid_action cfg a)) as [Ha|Ha].
    + rewrite step_after_end in Hs by done. by simplify_eq.
    + rewrite step_out_of_range in Hs by done. by simplify_eq.
  - destruct (inv_active _ _ HI Hd) as (_ & Hempty & _).
    rewrite <- Heq in Hempty. simpl in Hempty. congruence.
Qed.

Lemma step_keeps_cells_witness :
  ∃ st' r, step cfg_2x2 0 last_move_2x2 = Some (st', r) ∧
           grid_get (board st') 0 1 = Some 2%Z.
Proof.
  destruct (step cfg_2x2 0 last_move_2x2) as [[st' r]|] eqn:Hs;
    [|discriminate].
  exists st', r. split; [reflexivity|].
  destruct (step_keeps_cells cfg_2x2 0 last_move_2x2 st' r
              last_move_2x2_reachable Hs) as [_ Hkeep].
  apply Hkeep; [reflexivity|lia].
Defined.

(** X12. In every reachable terminal state the board is completely
    filled with colours in [1, num_colors], the pool is empty and the
    marker layer is all zero. *)
Theorem terminal_board_full (cfg : config) (st : env) :
  reachable cfg st → done st = true →
  filled cfg (board st) ∧
  _num_nonzero (board st) = n cfg * n cfg ∧
  pool_size (free_coords st) = 0 ∧
  marker st = zeros (n cfg).
Proof.
  intros Hreach Hd. pose proof (reachable_Inv cfg st Hreach) as HI.
  destruct (inv_terminal _ _ HI Hd) as [Hc Hm].
  destruct (inv_board _ _ HI) as [Hlen Hrows].
  assert (Hcount : _num_nonzero (board st) = n cfg * n cfg)
    by (by rewrite <- (inv_count _ _ HI)).
  split_and!; [|done|by apply (reachable_pool_empty cfg)|done].
  split; [done|].
  pose proof (num_nonzero_full (n cfg) (board st) Hrows) as Hfull.
  rewrite Hlen in Hfull. specialize (Hfull Hcount).
  pose proof (inv_cells _ _ HI) as Hcells.
  apply Forall_forall. intros row Hrow.
  split; [by eapply Forall_forall in Hrows|].
  eapply Forall_forall in Hfull; [|done].
  eapply Forall_forall in Hcells; [|done].
  apply Forall_forall. intros x Hx.
  eapply Forall_forall in Hfull; [|done].
  eapply Forall_forall in Hcells; [|done].
  by destruct Hcells as [->|?].
Qed.

Lemma terminal_board_full_witness :
  filled cfg_2x2 (board end_2x2) ∧
  _num_nonzero (board end_2x2) = n cfg_2x2 * n cfg_2x2 ∧
  pool_size (free_coords end_2x2) = 0 ∧
  marker end_2x2 = zeros (n cfg_2x2).
Proof.
  apply (terminal_board_full cfg_2x2 end_2x2 end_2x2_reachable).
  reflexivity.
Defined.

(** X13. In every reachable active state the pool holds exactly the empty
    cells other than the current target: a cell is empty if and only if it
    is the target or waits in the pool, the target itself is not in the
    pool, and pool size, counter and the target add up to [n * n]. *)
Theorem pool_holds_empty_cells (cfg : config) (st : env) :
  reachable cfg st → done st = false →
  (∀ c, grid_get (board st) c.1 c.2 = Some 0%Z
        ↔ c = current_loc st ∨ pool_elem c (free_coords st)) ∧
  ¬ pool_elem (current_loc st) (free_coords st) ∧
  pool_size (free_coords st) + counter st + 1 = n cfg * n cfg.
Proof.
  intros Hreach Hd. pose proof (reachable_Inv cfg st Hreach) as HI.
  destruct (inv_active _ _ HI Hd) as (Hsize & Hcur & Hnotin & Hfree).
  split_and!; [|done|done]. intros c. split.
  - by apply (reachable_empty_cells cfg).
  - intros [->|Hc]; [done|by apply Hfree].
Qed.

Lemma pool_holds_empty_cells_witness :
  (∀ c, grid_get (board start_2x2) c.1 c.2 = Some 0%Z
        ↔ c = (0, 0) ∨ c ∈ [(0, 1); (1, 0); (1, 1)]) ∧
  ¬ ((0, 0) ∈ [(0, 1); (1, 0); (1, 1)]) ∧
  3 + 0 + 1 = 2 * 2.
Proof.
  apply (pool_holds_empty_cells cfg_2x2 start_2x2).
  - apply (reach_init cfg_2x2 rng0). reflexivity.
  - reflexivity.
Defined.

(** ** Construction, reset and the generator *)

Lemma first_location_is_Some (cfg : config) (g : rng) :
  0 < n cfg →
  ∃ c p g', _first_location cfg (_new_free_coords cfg) g = Some (c, p, g') ∧
            in_grid cfg c.
Proof.
  intros Hn. unfold _first_location.
  destruct (take_location_is_Some cfg (_new_free_coords cfg) g)
    as [[[c p] g'] Htake]; [apply new_free_coords_wf| |].
  { rewrite new_free_coords_size. nia. }
  exists c, p, g'. split; [done|].
  destruct (take_location_spec cfg _ _ _ _ _ (new_free_coords_wf cfg) Htake)
    as (Hin & _).
  by apply new_free_coords_elem.
Qed.



(** X15. [reset] does not depend on the state it is called in, reachable
    or not, beyond the generator: whenever the side length is positive it
    returns, with an empty board, counter 0, the flag cleared, and the
    coordinates of the grid split between the new target and a pool of
    [n * n - 1] others. *)
Theorem reset_from_any_state (cfg : config) (st : env) :
  0 < n cfg →
  ∃ st' o,
    reset cfg st = Some (st', o) ∧
    board st' = zeros (n cfg) ∧ counter st' = 0 ∧ done st' = false ∧
    pool_size (free_coords st') + 1 = n cfg * n cfg ∧
    ¬ pool_elem (current_loc st') (free_coords st') ∧
    ∀ c, in_grid cfg c ↔ c = current_loc st' ∨ pool_elem c (free_coords st').
Proof.
  intros Hn.
  destruct (first_location_is_Some cfg (random_state st) Hn)
    as (c & p & g' & Htake & Hc).
  unfold reset. rewrite Htake. simpl. eexists _, _. split; [done|]. simpl.
  unfold _first_location in Htake.
  destruct (take_location_spec cfg _ _ _ _ _ (new_free_coords_wf cfg) Htake)
    as (Hin & Hnotin & _ & Hsz & Hsub).
  rewrite new_free_coords_size in Hsz.
  split_and!; try done; [lia|]. intros d. split.
  - intros Hd%new_free_coords_elem.
    eapply (take_location_rest cfg); [done|apply new_free_coords_wf|done].
  - intros [->|Hd]; [done|]. by apply new_free_coords_elem, Hsub.
Qed.

Lemma reset_from_any_state_witness :
  ∃ st' o,
    reset cfg_2x2 end_2x2 = Some (st', o) ∧
    board st' = zeros 2 ∧ counter st' = 0 ∧ done st' = false ∧
    pool_size (free_coords st') + 1 = 2 * 2 ∧
    ¬ pool_elem (current_loc st') (free_coords st') ∧
    ∀ c, in_grid cfg_2x2 c
         ↔ c = current_loc st' ∨ pool_elem c (free_coords st').
Proof.
  apply (reset_from_any_state cfg_2x2 end_2x2). simpl. lia.
Defined.

Lemma take_location_ordered (p p' : pool) (g g' : rng) (c : coord) :
  take_location true p g = Some (c, p', g') →
  g' = g ∧ ∃ l, p = Queue (c :: l) ∧ p' = Queue l.
Proof.
  simpl. destruct p as [[|x l]|s]; try done.
  intros [= -> <- <-]. eauto.
Qed.




(** X17. Under random placement the generator is consumed exactly once for
    each target drawn: a call to [step] advances it by one draw when an
    accepted action leaves cells to colour, and leaves it untouched
    otherwise (action out of range, episode over, last cell coloured); the
    stream of draws itself never changes. *)
Theorem random_draw_per_target (cfg : config) (a : Z) (st st' : env)
    (r : step_result) :
  ordered_placement cfg = false →
  reachable cfg st → step cfg a st = Some (st', r) →
  stream (random_state st') = stream (random_state st) ∧
  drawn (random_state st')
  = drawn (random_state st)
    + (if decide (valid_action cfg a ∧ done st = false ∧
                  S (counter st) ≠ n cfg * n cfg) then 1 else 0).
Proof.
  intros Ho HI%reachable_Inv Hs.
  destruct (decide (valid_action cfg a)) as [Ha|Ha].
  2: { rewrite step_out_of_range in Hs by done. simplify_eq.
       rewrite decide_False by tauto. split; [done|lia]. }
  destruct (done st) eqn:Hd.
  { rewrite step_after_end in Hs by done. simplify_eq.
    rewrite decide_False by (intros (_ & ? & _); done). split; [done|lia]. }
  destruct (decide (S (counter st) = n cfg * n cfg)) as [Hc|Hc].
  - destruct (step_last cfg a st HI Ha Hd Hc) as (b' & legal & _ & _ & Heq).
    rewrite Heq in Hs. simplify_eq. simpl.
    rewrite decide_False by tauto. split; [done|lia].
  - destruct (step_next cfg a st HI Ha Hd Hc)
      as (b' & new_loc & p & g' & m' & _ & _ & Htake & _ & Heq).
    rewrite Heq in Hs. simplify_eq. simpl.
    rewrite decide_True by done.
    pose proof (inv_pool _ _ HI) as Hwf.
    unfold take_location in Htake. rewrite Ho in Htake.
    destruct (free_coords st) as [l|s]; simpl in Hwf;
      [destruct Hwf; congruence|].
    unfold choice in Htake.
    destruct (elements s) as [|x xs]; [done|].
    destruct (_ !! _) as [d|]; simplify_eq/=. split; [done|lia].
Qed.

Lemma random_draw_per_target_witness :
  ∃ st st' r,
    init cfg_random rng_affine = Some st ∧
    step cfg_random 1 st = Some (st', r) ∧
    drawn (random_state st) = 1 ∧ drawn (random_state st') = 2.
Proof.
  destruct (init cfg_random rng_affine) as [st|] eqn:Hi; [|discriminate].
  destruct (step cfg_random 1 st) as [[st' r]|] eqn:Hs.
  2: { vm_compute in Hi. injection Hi as <-. vm_compute in Hs.
       discriminate. }
  exists st, st', r. split; [reflexivity|]. split; [exact Hs|].
  destruct (random_draw_per_target cfg_random 1 st st' r eq_refl
              (reach_init cfg_random rng_affine st Hi) Hs) as [_ Hdrawn].
  assert (Hd : drawn (random_state st) = 1).
  { vm_compute in Hi. injection Hi as <-. reflexivity. }
  split; [exact Hd|]. rewrite Hdrawn, Hd.
  rewrite decide_True; [reflexivity|].
  vm_compute in Hi. injection Hi as <-.
  split_and!; [unfold valid_action; simpl; lia|reflexivity|simpl; lia].
Defined.

(** ** The flattened view *)

Lemma flatten_row_length (rb rm : list Z) :
  length rb = length rm →
  length (concat (zip_with (λ x y : Z, [x; y]) rb rm)) = 2 * length rb.
Proof.
  revert rm. induction rb as [|x rb IH]; intros [|y rm] Hlen;
    simplify_eq/=; [done|].
  rewrite IH by done. lia.
Qed.

Lemma flatten_row_lookup (rb rm : list Z) (j : nat) :
  length rb = length rm →
  concat (zip_with (λ x y : Z, [x; y]) rb rm) !! (2 * j) = rb !! j ∧
  concat (zip_with (λ x y : Z, [x; y]) rb rm) !! (2 * j + 1) = rm !! j.
Proof.
  revert rm j. induction rb as [|x rb IH]; intros [|y rm] j Hlen;
    try discriminate; [done|].
  injection Hlen as Hlen. destruct j as [|j]; [done|].
  replace (2 * S j + 1) with (S (S (2 * j + 1))) by lia.
  replace (2 * S j) with (S (S (2 * j))) by lia.
  change (concat (zip_with (λ x y : Z, [x; y]) rb rm) !! (2 * j) = rb !! j ∧
          concat (zip_with (λ x y : Z, [x; y]) rb rm) !! (2 * j + 1)
          = rm !! j).
  by apply IH.
Qed.

Lemma flatten_state_length (k : nat) (b m : grid) :
  length b = length m →
  Forall (λ row : list Z, length row = k) b →
  Forall (λ row : list Z, length row = k) m →
  length (flatten_state b m) = 2 * k * length b.
Proof.
  unfold flatten_state. intros Hlen Hb. revert m Hlen.
  induction Hb as [|rb b Hrb _ IH]; intros [|rm m] Hlen Hm;
    simplify_eq/=; [lia|].
  apply Forall_cons in Hm as [Hrm Hm].
  rewrite length_app, flatten_row_length by congruence.
  rewrite IH by done. lia.
Qed.

Lemma flatten_state_lookup (k : nat) (b m : grid) (i j : nat) :
  length b = length m →
  Forall (λ row : list Z, length row = k) b →
  Forall (λ row : list Z, length row = k) m →
  i < length b → j < k →
  flatten_state b m !! (2 * (i * k + j)) = grid_get b i j ∧
  flatten_state b m !! (2 * (i * k + j) + 1) = grid_get m i j.
Proof.
  unfold flatten_state. intros Hlen Hb. revert m i Hlen.
  induction Hb as [|rb b Hrb _ IH]; intros m i Hlen Hm Hi Hj.
  { simpl in Hi. lia. }
  destruct m as [|rm m]; [discriminate|]. injection Hlen as Hlen.
  apply Forall_cons in Hm as [Hrm Hm].
  cbn [zip_with concat].
  assert (Hrow : length (concat (zip_with (λ x y : Z, [x; y]) rb rm))
                 = 2 * k).
  { rewrite flatten_row_length by congruence. by rewrite Hrb. }
  destruct i as [|i].
  - rewrite !lookup_app_l by (rewrite Hrow; lia).
    replace (2 * (0 * k + j)) with (2 * j) by lia.
    change (grid_get (rb :: b) 0 j) with (rb !! j).
    change (grid_get (rm :: m) 0 j) with (rm !! j).
    apply flatten_row_lookup. congruence.
  - rewrite !lookup_app_r by (rewrite Hrow; nia). rewrite Hrow.
    replace (2 * (S i * k + j) + 1 - 2 * k)
      with (2 * (i * k + j) + 1) by nia.
    replace (2 * (S i * k + j) - 2 * k) with (2 * (i * k + j)) by nia.
    change (grid_get (rb :: b) (S i) j) with (grid_get b i j).
    change (grid_get (rm :: m) (S i) j) with (grid_get m i j).
    apply IH; [done|done| |done]. simpl in Hi. lia.
Qed.


Lemma Inv_marker_square (cfg : config) (st : env) :
  Inv cfg st → is_square cfg (marker st).
Proof.
  intros HI. destruct (inv_marker _ _ HI) as [->|[_ Hm]].
  - split; [apply zeros_length|apply zeros_rows].
  - split.
    + rewrite (grid_set_length _ _ _ _ _ Hm). apply zeros_length.
    + eapply grid_set_rows; [done|apply zeros_rows].
Qed.

(** X18. The flattened view interleaves the two layers in row-major
    order: in a reachable state, with [flatten] set, the view has
    [2 * n * n] entries, entry [2 * (i * n + j)] is the board cell
    [(i, j)] and entry [2 * (i * n + j) + 1] is the marker cell [(i, j)]. *)
Theorem flat_view_layout (cfg : config) (st : env) :
  flatten cfg = true → reachable cfg st →
  ∃ l, _get_state_agent_view cfg st = Flat l ∧
       length l = 2 * n cfg * n cfg ∧
       ∀ i j, i < n cfg → j < n cfg →
              l !! (2 * (i * n cfg + j)) = grid_get (board st) i j ∧
              l !! (2 * (i * n cfg + j) + 1) = grid_get (marker st) i j.
Proof.
  intros Hf HI%reachable_Inv.
  destruct (inv_board _ _ HI) as [Hlen Hrows].
  destruct (Inv_marker_square cfg st HI) as [Hlen' Hrows'].
  unfold _get_state_agent_view. rewrite Hf. eexists. split; [done|].
  split.
  - rewrite (flatten_state_length (n cfg)) by (done || congruence).
    by rewrite Hlen.
  - intros i j Hi Hj.
    apply flatten_state_lookup; (done || congruence || lia).
Qed.

Lemma flat_view_layout_witness :
  ∃ st l, init cfg_random rng_affine = Some st ∧
          _get_state_agent_view cfg_random st = Flat l ∧
          length l = 8.
Proof.
  destruct (init cfg_random rng_affine) as [st|] eqn:Hi; [|discriminate].
  destruct (flat_view_layout cfg_random st eq_refl
              (reach_init cfg_random rng_affine st Hi)) as (l & Hv & Hl & _).
  exists st, l. split; [reflexivity|]. split; [exact Hv|exact Hl].
Defined.



(** ** Replaying an episode after a reset *)

Section Replay.

Variable cfg : config.
Hypothesis Hordered : ordered_placement cfg = true.

Lemma check_legal_board_board (s1 s2 : env) :
  board s1 = board s2 →
  _check_legal_board cfg s1 = _check_legal_board cfg s2.
Proof. unfold _check_legal_board. by intros ->. Qed.

Lemma step_same_play (a : Z) (s1 s2 s1' : env) (r1 : step_result) :
  Inv cfg s1 → Inv cfg s2 → same_play s1 s2 →
  step cfg a s1 = Some (s1', r1) →
  ∃ s2' r2, step cfg a s2 = Some (s2', r2) ∧ same_play s1' s2' ∧
            reward r1 = reward r2 ∧ terminal r1 = terminal r2.
Proof.
  intros HI1 HI2 (Hfree & Hboard & Hcount & Hdone & Hloc) Hs.
  destruct (decide (valid_action cfg a)) as [Ha|Ha].
  2: { rewrite step_out_of_range in Hs by done. simplify_eq.
       rewrite step_out_of_range by done. eexists _, _.
       split; [done|]. by repeat split. }
  destruct (done s1) eqn:Hd.
  { rewrite step_after_end in Hs by done. simplify_eq.
    rewrite step_after_end by done. eexists _, _.
    split; [done|]. repeat split; simpl; congruence. }
  assert (Hd2 : done s2 = false) by congruence.
  destruct (decide (S (counter s1) = n cfg * n cfg)) as [Hc|Hc].
  - destruct (step_last cfg a s1 HI1 Ha Hd Hc)
      as (b1 & legal1 & Hb1 & Hl1 & Heq1).
    destruct (step_last cfg a s2 HI2 Ha Hd2) as (b2 & legal2 & Hb2 & Hl2 & Heq2);
      [congruence|].
    rewrite Heq1 in Hs. simplify_eq. rewrite Heq2.
    rewrite Hboard, Hloc, Hb2 in Hb1. injection Hb1 as <-.
    rewrite (check_legal_board_board _
               (Env (free_coords s2) b2 (zeros (n cfg)) (S (counter s2)) true
                    (current_loc s2) (random_state s2))) in Hl1 by done.
    rewrite Hl2 in Hl1. injection Hl1 as <-.
    eexists _, _. split; [done|]. repeat split; simpl; congruence.
  - destruct (step_next cfg a s1 HI1 Ha Hd Hc)
      as (b1 & c1 & p1 & g1 & m1 & Hb1 & _ & Ht1 & _ & Heq1).
    destruct (step_next cfg a s2 HI2 Ha Hd2)
      as (b2 & c2 & p2 & g2 & m2 & Hb2 & _ & Ht2 & _ & Heq2);
      [congruence|].
    rewrite Heq1 in Hs. simplify_eq. rewrite Heq2.
    rewrite Hboard, Hloc, Hb2 in Hb1. injection Hb1 as <-.
    rewrite Hordered in Ht1, Ht2.
    apply take_location_ordered in Ht1 as (_ & l1 & Hq1 & ->).
    apply take_location_ordered in Ht2 as (_ & l2 & Hq2 & ->).
    rewrite Hfree, Hq2 in Hq1. injection Hq1 as <- <-.
    eexists _, _. split; [done|]. repeat split; simpl; congruence.
Qed.

Lemma run_same_play (acts : list Z) (s1 s2 : env)
    (l1 : list (env * step_result)) :
  Inv cfg s1 → Inv cfg s2 → same_play s1 s2 →
  run cfg acts s1 = Some l1 →
  ∃ l2, run cfg acts s2 = Some l2 ∧ map outcome l2 = map outcome l1.
Proof.
  revert s1 s2 l1. induction acts as [|a acts IH];
    intros s1 s2 l1 HI1 HI2 Hsame Hrun; simplify_eq/=.
  { by exists []. }
  destruct (step cfg a s1) as [[s1' r1]|] eqn:Hs1; simplify_eq/=.
  destruct (run cfg acts s1') as [l1'|] eqn:Hrun1; simplify_eq/=.
  destruct (step_same_play a s1 s2 s1' r1 HI1 HI2 Hsame Hs1)
    as (s2' & r2 & Hs2 & Hsame' & Hrew & Hterm).
  rewrite Hs2. simpl.
  destruct (IH s1' s2' l1') as (l2' & -> & Hout); [..|done|done|].
  { apply (step_Inv cfg a s1 s1' r1 HI1 Hs1). }
  { apply (step_Inv cfg a s2 s2' r2 HI2 Hs2). }
  simpl. eexists. split; [done|]. simpl. rewrite Hout. f_equal.
  destruct Hsame' as (_ & Hb & Hc & _ & Hl). unfold outcome. simpl.
  congruence.
Qed.

End Replay.

(** X20. Under ordered placement a reset brings the episode back to its
    beginning: whatever the state [reset] is called in, replaying a list of
    raw actions after it returns, call by call, the same boards, counters,
    targets, rewards and terminal flags as playing them right after
    construction. (The marker layers may differ until the first accepted
    action.) *)
Theorem reset_replays_episode (cfg : config) (g : rng) (acts : list Z)
    (s0 st s1 : env) (o : observation) (l0 : list (env * step_result)) :
  ordered_placement cfg = true →
  init cfg g = Some s0 →
  reset cfg st = Some (s1, o) →
  run cfg acts s0 = Some l0 →
  ∃ l1, run cfg acts s1 = Some l1 ∧ map outcome l1 = map outcome l0.
Proof.
  intros Ho Hi Hr Hrun.
  apply (run_same_play cfg Ho acts s0 s1 l0);
    [by eapply init_Inv|by eapply reset_Inv| |done].
  unfold init in Hi. unfold reset in Hr.
  unfold _first_location, _new_free_coords in *. rewrite Ho in *.
  destruct (take_location true _ g) as [[[c p] g']|] eqn:Ht0; simplify_eq/=.
  destruct (grid_set _ _ _ _) as [m|]; simplify_eq/=.
  destruct (all_coords (n cfg)) as [|x l]; simplify_eq/=.
  by repeat split.
Qed.

Lemma reset_replays_episode_witness :
  ∃ l0 l1,
    run cfg_2x2 [0; 5; 1; 0; 1]%Z start_2x2 = Some l0 ∧
    run cfg_2x2 [0; 5; 1; 0; 1]%Z after_reset_2x2 = Some l1 ∧
    map outcome l1 = map outcome l0.
Proof.
  destruct (run cfg_2x2 [0; 5; 1; 0; 1]%Z start_2x2) as [l0|] eqn:Hrun;
    [|discriminate].
  destruct (reset_replays_episode cfg_2x2 rng0 [0; 5; 1; 0; 1]%Z
              start_2x2 end_2x2 after_reset_2x2
              (Stacked (zeros 2) (zeros 2)) l0
              eq_refl eq_refl eq_refl Hrun) as (l1 & Hrun1 & Hout).
  exists l0, l1. split; [reflexivity|]. split; [exact Hrun1|exact Hout].
Defined.
